(** * Yark pages: the archive session store and the REST connector

    A shallow embedding of [yark-pages/src/lib/archive.ts] and of the page
    loader [ui/src/routes/start/+layout.server.ts].

    Conventions of the embedding:
    - a JavaScript string is a [string]; its characters stand for the
      code units 0..255;
    - a function that may throw returns a [result]; an [async] function is
      a computation of the [Async] monad below, whose rejection is a
      [Throw] and whose HTTP traffic is recorded as a list of requests;
    - the platform objects the connector relies on ([URL], [JSON],
      [fetch]) are modelled next to the code that uses them. *)

From Stdlib Require Import String Ascii List Bool Arith NArith Lia.
Import ListNotations.
Open Scope string_scope.
#[local] Set Warnings "-register-all".

(** ** Exceptions and results *)

Inductive exn : Type :=
| Error (message : string)            (* [new Error(message)] *)
| TypeError                           (* [new URL] on an invalid URL, a property read on [null], a failed [fetch] *)
| SyntaxError                         (* [JSON.parse] on a malformed text *)
| Redirect (status : nat) (location : string).   (* kit's [redirect(status, location)] *)

Inductive result (A : Type) : Type :=
| Ok (a : A)
| Throw (e : exn).
Arguments Ok {A} a.
Arguments Throw {A} e.

Definition rbind {A B} (r : result A) (k : A -> result B) : result B :=
  match r with
  | Ok a => k a
  | Throw e => Throw e
  end.

(** ** Data model *)

(** [interface Archive] *)
Record Archive : Type := mkArchive {
  server : string;
  slug : string
}.

(** [interface CreateArchiveRemotePayload]; its fields [server], [slug],
    [path] and [target] carry a prefix here, the first two names being
    taken by the fields of [Archive]. *)
Record CreateArchiveRemotePayload : Type := mkCreatePayload {
  create_server : string;
  create_slug : string;
  create_path : string;
  create_target : string
}.

(** [interface ImportArchiveRemotePayload], its fields under a prefix as
    well. *)
Record ImportArchiveRemotePayload : Type := mkImportPayload {
  import_server : string;
  import_slug : string;
  import_path : string
}.

(** A JavaScript number is kept as its decimal literal; the double it
    denotes is not computed. *)
Definition number : Type := string.

(** [interface Note], with its fields [id], [timestamp], [title] and [body]
    under a prefix. *)
Record Note : Type := mkNote {
  note_id : string;
  note_timestamp : number;
  note_title : string;
  note_body : string
}.

(** [enum ArchiveVideoKind] *)
Inductive ArchiveVideoKind : Type :=
| Videos
| Livestreams
| Shorts.

(** [archiveVideoKindToString] *)
Definition archiveVideoKindToString (kind : ArchiveVideoKind) : string :=
  match kind with
  | Videos => "videos"
  | Livestreams => "livestreams"
  | Shorts => "shorts"
  end.

(** ** The session store *)

(** Modelled from the spec: the value held by [yarkStore] of [./store], which
    is not part of the sources at hand.  The store holds the archive that is
    open, if any, and the insertion-ordered list of recently opened
    archives; [openedArchive = None] stands for [undefined] (and for [null],
    which the test [archive == undefined] of the connector does not tell
    apart). *)
Record YarkStore : Type := mkStore {
  openedArchive : option Archive;
  recents : list Archive
}.

(** Modelled from the spec: the store before any archive was opened. *)
Definition initialStore : YarkStore :=
  {| openedArchive := None; recents := [] |}.

(** The client: the store and the route the navigation service was last
    sent to by [goto]. *)
Record Client : Type := mkClient {
  yarkStore : YarkStore;
  route : string
}.

Definition initialClient (start : string) : Client :=
  {| yarkStore := initialStore; route := start |}.

Definition RECENTS_MAX : nat := 30.

(** [Array.prototype.shift], its result dropped, and [Array.prototype.push]. *)
Definition shift {A} (l : list A) : list A := tl l.
Definition push {A} (l : list A) (x : A) : list A := (l ++ [x])%list.

(** The callback [setCurrentArchive] hands to [yarkStore.update]. *)
Definition setCurrentArchive_update (archive : Archive) (value : YarkStore) : YarkStore :=
  let value := {| openedArchive := Some archive; recents := recents value |} in
  let value :=
    if (RECENTS_MAX <=? List.length (recents value))%nat
    then {| openedArchive := openedArchive value; recents := shift (recents value) |}
    else value in
  {| openedArchive := openedArchive value; recents := push (recents value) archive |}.

(** [setCurrentArchive]: [update] replaces the store value by the callback's
    result, then [goto] changes the route. *)
Definition setCurrentArchive (archive : Archive) (c : Client) : Client :=
  {| yarkStore := setCurrentArchive_update archive (yarkStore c);
     route := "/archive/videos" |}.

(** The client after a sequence of [setCurrentArchive] calls, first call
    first. *)
Definition setCurrentArchive_all (calls : list Archive) (c : Client) : Client :=
  fold_left (fun c a => setCurrentArchive a c) calls c.

(** [getOpenedArchiveAlways] *)
Definition not_open_message : string :=
  "Archive was expected to be open but it wasn't".

Definition getOpenedArchiveAlways (st : YarkStore) : result Archive :=
  match openedArchive st with
  | None => Throw (Error not_open_message)
  | Some archive => Ok archive
  end.

(** [getArchiveApiLink] *)
Definition getArchiveApiLink (archive : Archive) : string :=
  server archive ++ "/archive/" ++ slug archive.

(** [getOpenedArchiveApiLink] *)
Definition getOpenedArchiveApiLink (st : YarkStore) : result string :=
  rbind (getOpenedArchiveAlways st) (fun a => Ok (getArchiveApiLink a)).

(** [getVideoThumbnailApiLink] *)
Definition getVideoThumbnailApiLink (thumbnail_id : string) (st : YarkStore) : result string :=
  rbind (getOpenedArchiveApiLink st) (fun l => Ok (l ++ "/thumbnail/" ++ thumbnail_id)).

(** [getVideoFileApiLink] *)
Definition getVideoFileApiLink (videoId : string) (st : YarkStore) : result string :=
  rbind (getOpenedArchiveApiLink st) (fun l => Ok (l ++ "/video/" ++ videoId ++ "/file")).

(** ** JSON

    [JSON.stringify] and [JSON.parse] of the platform, over the values a
    JSON text denotes.  An object keeps its members in insertion order. *)

Inductive JSON : Type :=
| JNull
| JBool (b : bool)
| JNumber (literal : number)
| JString (s : string)
| JArray (items : list JSON)
| JObject (members : list (string * JSON)).

Definition dquote : ascii := "034"%char.
Definition backslash : ascii := "092"%char.

(** Code units below U+0020. *)
Definition is_control (c : ascii) : bool :=
  match c with
  | Ascii _ _ _ _ _ false false false => true
  | _ => false
  end.

Definition hex_digit (n : nat) : ascii :=
  match n with
  | 0 => "0" | 1 => "1" | 2 => "2" | 3 => "3" | 4 => "4" | 5 => "5" | 6 => "6" | 7 => "7"
  | 8 => "8" | 9 => "9" | 10 => "a" | 11 => "b" | 12 => "c" | 13 => "d" | 14 => "e" | _ => "f"
  end%char.

(** [QuoteJSONString], one code unit at a time. *)
Definition escape_char (c : ascii) : string :=
  match c with
  | "034"%char => String backslash (String dquote "")
  | "092"%char => String backslash (String backslash "")
  | "008"%char => String backslash "b"
  | "009"%char => String backslash "t"
  | "010"%char => String backslash "n"
  | "012"%char => String backslash "f"
  | "013"%char => String backslash "r"
  | _ =>
      if is_control c
      then String backslash
             (String "u" (String "0" (String "0"
               (String (hex_digit (nat_of_ascii c / 16))
                 (String (hex_digit (nat_of_ascii c mod 16)) "")))))
      else String c ""
  end.

Fixpoint escape (s : string) : string :=
  match s with
  | "" => ""
  | String c r => escape_char c ++ escape r
  end.

Definition quote (s : string) : string :=
  String dquote (escape s ++ String dquote "").

(** [JSON.stringify(value)], without indentation. *)
Fixpoint JSON_stringify (j : JSON) : string :=
  match j with
  | JNull => "null"
  | JBool true => "true"
  | JBool false => "false"
  | JNumber n => n
  | JString s => quote s
  | JArray items => "[" ++ String.concat "," (map JSON_stringify items) ++ "]"
  | JObject members =>
      "{" ++ String.concat "," (map (fun kv => quote (fst kv) ++ ":" ++ JSON_stringify (snd kv)) members) ++ "}"
  end.

(** *** Parsing *)

(** The text after the prefix [p], when the text starts with it. *)
Fixpoint strip_prefix (p s : string) : option string :=
  match p, s with
  | "", _ => Some s
  | String a p', String b s' => if (a =? b)%char then strip_prefix p' s' else None
  | String _ _, "" => None
  end.

Definition is_ws (c : ascii) : bool :=
  match c with
  | " "%char | "009"%char | "010"%char | "013"%char => true
  | _ => false
  end.

Fixpoint skip_ws (s : string) : string :=
  match s with
  | String c r => if is_ws c then skip_ws r else s
  | "" => ""
  end.

Definition hex_value (c : ascii) : option nat :=
  let n := nat_of_ascii c in
  if (48 <=? n)%nat && (n <=? 57)%nat then Some (n - 48)
  else if (97 <=? n)%nat && (n <=? 102)%nat then Some (n - 87)
  else if (65 <=? n)%nat && (n <=? 70)%nat then Some (n - 55)
  else None.

(** The code unit of a [\uXXXX] escape.  Code units above U+00FF have no
    counterpart among the characters of [string]: a text that holds one is
    outside the model and is refused. *)
Definition unicode_escape (h1 h2 h3 h4 : ascii) : option ascii :=
  match hex_value h1, hex_value h2, hex_value h3, hex_value h4 with
  | Some 0, Some 0, Some a, Some b => Some (ascii_of_nat (16 * a + b))
  | _, _, _, _ => None
  end.

Definition cons_char (c : ascii) (r : option (string * string)) : option (string * string) :=
  match r with
  | Some (s, rest) => Some (String c s, rest)
  | None => None
  end.

(** The character an escape of one letter stands for. *)
Definition unescape (e : ascii) : option ascii :=
  match e with
  | "034"%char => Some "034"%char
  | "092"%char => Some "092"%char
  | "/"%char => Some "/"%char
  | "b"%char => Some "008"%char
  | "f"%char => Some "012"%char
  | "n"%char => Some "010"%char
  | "r"%char => Some "013"%char
  | "t"%char => Some "009"%char
  | _ => None
  end.

(** The characters of a string literal, after its opening quote: the
    decoded string and the text after the closing quote. *)
Fixpoint parse_chars (s : string) : option (string * string) :=
  match s with
  | "" => None
  | String c r =>
      if (c =? dquote)%char then Some ("", r)
      else if (c =? backslash)%char then
        match r with
        | "" => None
        | String e r' =>
            if (e =? "u")%char then
              match r' with
              | String h1 (String h2 (String h3 (String h4 r''))) =>
                  match unicode_escape h1 h2 h3 h4 with
                  | Some u => cons_char u (parse_chars r'')
                  | None => None
                  end
              | _ => None
              end
            else
              match unescape e with
              | Some c' => cons_char c' (parse_chars r')
              | None => None
              end
        end
      else if is_control c then None
      else cons_char c (parse_chars r)
  end.

Definition is_digit (c : ascii) : bool :=
  let n := nat_of_ascii c in (48 <=? n)%nat && (n <=? 57)%nat.

Fixpoint span_digits (s : string) : string * string :=
  match s with
  | String c r =>
      if is_digit c then let (d, r') := span_digits r in (String c d, r') else ("", s)
  | "" => ("", "")
  end.

(** One or more digits. *)
Definition parse_digits (s : string) : option (string * string) :=
  match span_digits s with
  | ("", _) => None
  | (d, r) => Some (d, r)
  end.

(** The parts of a number literal, each with the text after it: an optional
    minus sign; the integer part, a zero or a run of digits; an optional
    fraction, a dot and a run of digits; an optional exponent, the letter e,
    an optional sign and a run of digits. *)
Definition scan_sign (s : string) : string * string :=
  match s with
  | String c r => if (c =? "-")%char then ("-", r) else ("", s)
  | "" => ("", s)
  end.

Definition scan_int (s : string) : option (string * string) :=
  match s with
  | String c r => if (c =? "0")%char then Some ("0", r) else parse_digits s
  | "" => None
  end.

Definition scan_frac (s : string) : option (string * string) :=
  match s with
  | String c r =>
      if (c =? ".")%char then
        match parse_digits r with
        | Some (d, r') => Some (String c d, r')
        | None => None
        end
      else Some ("", s)
  | "" => Some ("", s)
  end.

Definition scan_exp (s : string) : option (string * string) :=
  match s with
  | String c r =>
      if ((c =? "e") || (c =? "E"))%char then
        let (sign, r) :=
          match r with
          | String c' r' => if ((c' =? "+") || (c' =? "-"))%char then (String c' "", r') else ("", r)
          | "" => ("", r)
          end in
        match parse_digits r with
        | Some (d, r') => Some (String c (sign ++ d), r')
        | None => None
        end
      else Some ("", s)
  | "" => Some ("", s)
  end.

(** A number literal, kept as written. *)
Definition parse_number (s : string) : option (number * string) :=
  let (sign, s) := scan_sign s in
  match scan_int s with
  | None => None
  | Some (int, s) =>
      match scan_frac s with
      | None => None
      | Some (frac, s) =>
          match scan_exp s with
          | None => None
          | Some (exp, s) => Some (sign ++ int ++ frac ++ exp, s)
          end
      end
  end.

(** The literals [true], [false] and [null], and the numbers. *)
Definition parse_literal (s : string) : option (JSON * string) :=
  match strip_prefix "true" s with
  | Some r => Some (JBool true, r)
  | None =>
      match strip_prefix "false" s with
      | Some r => Some (JBool false, r)
      | None =>
          match strip_prefix "null" s with
          | Some r => Some (JNull, r)
          | None =>
              match parse_number s with
              | Some (n, r) => Some (JNumber n, r)
              | None => None
              end
          end
      end
  end.

(** Adds a member to an object under construction: a repeated name keeps
    its place and takes the later value. *)
Fixpoint obj_set (k : string) (v : JSON) (m : list (string * JSON)) : list (string * JSON) :=
  match m with
  | [] => [(k, v)]
  | (k', v') :: r => if (k =? k')%string then (k, v) :: r else (k', v') :: obj_set k v r
  end.

(** Whether the text, after white space, starts with the character. *)
Definition starts_with (c : ascii) (s : string) : bool :=
  match skip_ws s with
  | String c' _ => (c' =? c)%char
  | "" => false
  end.

(** The text after its white space and one character. *)
Definition after_char (s : string) : string :=
  match skip_ws s with
  | String _ r => r
  | "" => ""
  end.

(** Recursive descent over the text.  [fuel] bounds the depth of the calls;
    [JSON_parse] below starts with more than the text is long, which is
    enough for every text ([parse_value_fuel]). *)
Fixpoint parse_value (fuel : nat) (s : string) {struct fuel} : option (JSON * string) :=
  match fuel with
  | O => None
  | S fuel =>
      if starts_with "{" s then
        if starts_with "}" (after_char s) then Some (JObject [], after_char (after_char s))
        else parse_members fuel (after_char s) []
      else if starts_with "[" s then
        if starts_with "]" (after_char s) then Some (JArray [], after_char (after_char s))
        else parse_elements fuel (after_char s) []
      else if starts_with dquote s then
        match parse_chars (after_char s) with
        | Some (str, r) => Some (JString str, r)
        | None => None
        end
      else parse_literal (skip_ws s)
  end
with parse_elements (fuel : nat) (s : string) (acc : list JSON) {struct fuel}
  : option (JSON * string) :=
  match fuel with
  | O => None
  | S fuel =>
      match parse_value fuel s with
      | None => None
      | Some (v, r) =>
          if starts_with "," r then parse_elements fuel (after_char r) (acc ++ [v])%list
          else if starts_with "]" r then Some (JArray (acc ++ [v])%list, after_char r)
          else None
      end
  end
with parse_members (fuel : nat) (s : string) (acc : list (string * JSON)) {struct fuel}
  : option (JSON * string) :=
  match fuel with
  | O => None
  | S fuel =>
      if starts_with dquote s then
        match parse_chars (after_char s) with
        | None => None
        | Some (k, r) =>
            if starts_with ":" r then
              match parse_value fuel (after_char r) with
              | None => None
              | Some (v, r) =>
                  if starts_with "," r then parse_members fuel (after_char r) (obj_set k v acc)
                  else if starts_with "}" r then Some (JObject (obj_set k v acc), after_char r)
                  else None
              end
            else None
        end
      else None
  end.

(** [JSON.parse(text)] *)
Definition JSON_parse (text : string) : result JSON :=
  match parse_value (S (String.length text)) text with
  | Some (v, r) =>
      match skip_ws r with
      | "" => Ok v
      | _ => Throw SyntaxError
      end
  | None => Throw SyntaxError
  end.

(** A parser finds the same with any fuel above the length of what it
    reads: fuel is no part of its results. *)
Definition fuel_free {A} (parse : nat -> string -> option (A * string)) (f : nat) : Prop :=
  forall s v r,
    parse f s = Some (v, r) ->
    String.length r <= String.length s
    /\ forall f', String.length s - String.length r < f' -> parse f' s = Some (v, r).

(** [value[name]] for a value that came out of [JSON.parse] and a [name]
    that no prototype defines (as [slug] below): [None] is [undefined], and
    reading a property of [null] throws. *)
Definition get_property (value : JSON) (name : string) : result (option JSON) :=
  match value with
  | JNull => Throw TypeError
  | JObject members =>
      Ok (option_map snd (find (fun kv => (fst kv =? name)%string) members))
  | _ => Ok None
  end.

(** ** URL

    The platform's [URL] object.  [new URL] is modelled on the [http] and
    [https] addresses that the parser keeps as they are written: a
    lower-case scheme, a host of dot-separated labels made of lower-case
    letters and digits and starting with a letter, an optional port that is
    written without leading zero and fits 16 bits, a path whose segments
    hold letters, digits, [-] and [_] only, and a query and a fragment
    within the characters listed below.  On such a text every component is
    the text's own, but for the default port of the scheme, which the
    parser drops.  Any other text is outside the model, and refused; the
    refusals that the properties rest on are those of texts without a
    colon, which have no scheme.

    The setter of [pathname] and [searchParams.set] follow the URL standard
    on every value: the first percent-encodes and resolves dot segments, the
    second writes the query in the form-urlencoded way. *)

Record URL : Type := mkURL {
  origin : string;      (* scheme, [://] and authority *)
  pathname : string;    (* starts with [/] *)
  search : string;      (* empty, or [?] and the query, as [href] shows it *)
  hash : string         (* empty, or [#] and the fragment, as [href] shows it *)
}.

(** The text before the first character that satisfies [stop], and the text
    from that character on. *)
Fixpoint break_at (stop : ascii -> bool) (s : string) : string * string :=
  match s with
  | "" => ("", "")
  | String c r =>
      if stop c then ("", s) else let (h, t) := break_at stop r in (String c h, t)
  end.

Definition is_empty (s : string) : bool :=
  match s with
  | "" => true
  | _ => false
  end.

(** A text without its first character. *)
Definition drop_first (s : string) : string :=
  match s with
  | "" => ""
  | String _ r => r
  end.

Fixpoint string_forall (p : ascii -> bool) (s : string) : bool :=
  match s with
  | "" => true
  | String c r => p c && string_forall p r
  end.

Fixpoint split_on (sep : ascii) (s : string) : list string :=
  match s with
  | "" => [""]
  | String c r =>
      if (c =? sep)%char then "" :: split_on sep r
      else match split_on sep r with
           | h :: t => String c h :: t
           | [] => [String c ""]
           end
  end.

Definition is_lower (c : ascii) : bool :=
  (97 <=? nat_of_ascii c)%nat && (nat_of_ascii c <=? 122)%nat.

Definition is_upper (c : ascii) : bool :=
  (65 <=? nat_of_ascii c)%nat && (nat_of_ascii c <=? 90)%nat.

Definition is_alnum (c : ascii) : bool :=
  is_lower c || is_upper c || is_digit c.

(** The characters that neither the URL parser nor the setter of
    [pathname] touches, and that end no component. *)
Definition unreserved (c : ascii) : bool :=
  (is_alnum c || (c =? "-") || (c =? "_"))%char.


Definition path_char (c : ascii) : bool :=
  (unreserved c || (c =? "/"))%char.

Definition query_char (c : ascii) : bool :=
  (unreserved c || (c =? "&") || (c =? "=") || (c =? "/"))%char.

Definition host_label (label : string) : bool :=
  match label with
  | "" => false
  | String c r => is_lower c && string_forall (fun c => is_lower c || is_digit c) r
  end.

Definition valid_host (host : string) : bool :=
  forallb host_label (split_on "." host).

Fixpoint decimal (acc : N) (digits : string) : N :=
  match digits with
  | "" => acc
  | String c r => decimal (10 * acc + (N_of_ascii c - 48))%N r
  end.

Definition default_port (scheme : string) : N :=
  if (scheme =? "https://")%string then 443%N else 80%N.

(** A port as the parser writes it back: no leading zero, and within 16
    bits. *)
Definition valid_port (digits : string) : bool :=
  match digits with
  | "" => false
  | String c _ =>
      negb (c =? "0")%char
      && string_forall is_digit digits
      && (String.length digits <=? 5)%nat
      && (decimal 0 digits <=? 65535)%N
  end.

(** [new URL(input)]; the default port of the scheme is not part of the
    origin. *)
Definition URL_new (input : string) : result URL :=
  match
    match strip_prefix "https://" input with
    | Some r => Some ("https://", r)
    | None =>
        match strip_prefix "http://" input with
        | Some r => Some ("http://", r)
        | None => None
        end
    end
  with
  | None => Throw TypeError
  | Some (scheme, r) =>
      let (authority, r) := break_at (fun c => (c =? "/") || (c =? "?") || (c =? "#"))%char r in
      let (path, r) := break_at (fun c => (c =? "?") || (c =? "#"))%char r in
      let (query, fragment) := break_at (fun c => (c =? "#")%char) r in
      let (host, port) := break_at (fun c => (c =? ":")%char) authority in
      if valid_host host
         && (is_empty port || valid_port (drop_first port))
         && string_forall path_char path
         && string_forall query_char (drop_first query)
         && string_forall unreserved (drop_first fragment)
      then Ok {| origin := scheme ++ host
                           ++ (if (decimal 0 (drop_first port) =? default_port scheme)%N
                               then "" else port);
                 pathname := if is_empty path then "/" else path;
                 search := query;
                 hash := fragment |}
      else Throw TypeError
  end.

(** [url.href] *)
Definition href (url : URL) : string :=
  origin url ++ pathname url ++ search url ++ hash url.

(** *** The setter of [url.pathname] *)

Definition upper_hex (n : nat) : ascii :=
  if (n <? 10)%nat then ascii_of_nat (48 + n) else ascii_of_nat (55 + n).

Definition percent_byte (n : nat) : string :=
  String "%" (String (upper_hex (n / 16)) (String (upper_hex (n mod 16)) "")).

(** The UTF-8 bytes of the code point of [c], each percent-encoded. *)
Definition utf8_percent_encode (c : ascii) : string :=
  let n := nat_of_ascii c in
  if (n <? 128)%nat then percent_byte n
  else percent_byte (192 + n / 64) ++ percent_byte (128 + n mod 64).

(** The path percent-encode set: the controls, what is above [~], and
    space, the double quote, [#], [<], [>], [?], [^], the backquote, and
    the two braces. *)
Definition in_path_set (c : ascii) : bool :=
  let n := nat_of_ascii c in
  ((n <? 32) || (126 <? n))%nat
  || existsb (Nat.eqb n) [32; 34; 35; 60; 62; 63; 94; 96; 123; 125].

Definition path_encode (c : ascii) : string :=
  if in_path_set c then utf8_percent_encode c else String c "".

Definition single_dots : list string := ["."; "%2e"; "%2E"].

Definition is_single_dot (segment : string) : bool :=
  existsb (String.eqb segment) single_dots.

Definition is_double_dot (segment : string) : bool :=
  existsb (fun x => existsb (fun y => (segment =? x ++ y)%string) single_dots)
          single_dots.

(** The end of a segment: at a slash, or ([last]) at the end of the
    value. *)
Definition segment_end (last : bool) (path : list string) (buffer : string)
  : list string :=
  if is_double_dot buffer
  then (if last then removelast path ++ [""] else removelast path)
  else if is_single_dot buffer
       then (if last then path ++ [""] else path)
       else path ++ [buffer].

Fixpoint path_state (path : list string) (buffer : string) (value : string)
  : list string :=
  match value with
  | "" => segment_end true path buffer
  | String c r =>
      if ((c =? "/") || (c =? "092"))%char
      then path_state (segment_end false path buffer) "" r
      else path_state path (buffer ++ path_encode c) r
  end.

Fixpoint serialize_path (path : list string) : string :=
  match path with
  | [] => ""
  | segment :: r => String "/" segment ++ serialize_path r
  end.

Fixpoint remove_tab_newline (s : string) : string :=
  match s with
  | "" => ""
  | String c r =>
      if ((c =? "009") || (c =? "010") || (c =? "013"))%char
      then remove_tab_newline r
      else String c (remove_tab_newline r)
  end.

(** What the setter makes of a value: tabs and newlines go, a slash or a
    backslash ends a segment, a dot segment is resolved, and the other
    characters are kept or percent-encoded. *)
Definition normalize_path (value : string) : string :=
  let value := remove_tab_newline value in
  serialize_path
    (path_state [] ""
       match value with
       | String c r => if ((c =? "/") || (c =? "092"))%char then r else value
       | "" => value
       end).

Definition set_pathname (url : URL) (value : string) : URL :=
  {| origin := origin url;
     pathname := normalize_path value;
     search := search url;
     hash := hash url |}.

(** *** [url.searchParams] *)

(** The name-value pairs of a query.  The queries [URL_new] accepts hold no
    [+] and no [%], so that nothing is to decode. *)
Definition parse_query (query : string) : list (string * string) :=
  map (fun piece =>
         let (name, value) := break_at (fun c => (c =? "=")%char) piece in
         (name, drop_first value))
      (filter (fun piece => negb (is_empty piece)) (split_on "&" query)).

(** The form-urlencoded serialisation: letters, digits, [*], [-], [.] and
    [_] stay, a space becomes [+], any other character is
    percent-encoded. *)
Definition form_encode_char (c : ascii) : string :=
  if (is_alnum c || (c =? "*") || (c =? "-") || (c =? ".") || (c =? "_"))%char
  then String c ""
  else if (c =? " ")%char then "+" else utf8_percent_encode c.

Fixpoint form_encode (s : string) : string :=
  match s with
  | "" => ""
  | String c r => form_encode_char c ++ form_encode r
  end.

Definition serialize_query (params : list (string * string)) : string :=
  String.concat "&"
    (map (fun nv => form_encode (fst nv) ++ "=" ++ form_encode (snd nv)) params).

(** [URLSearchParams.prototype.set]: the first pair of that name takes the
    value and the later ones go; without one, the pair is appended. *)
Fixpoint params_set (name value : string) (params : list (string * string))
  : list (string * string) :=
  match params with
  | [] => [(name, value)]
  | (n, v) :: r =>
      if (n =? name)%string
      then (name, value) :: filter (fun nv => negb (fst nv =? name)%string) r
      else (n, v) :: params_set name value r
  end.

(** [url.searchParams.set(name, value)], which rewrites [url.search]. *)
Definition searchParams_set (url : URL) (name value : string) : URL :=
  let params := params_set name value (parse_query (drop_first (search url))) in
  {| origin := origin url;
     pathname := pathname url;
     search := String "?" (serialize_query params);
     hash := hash url |}.

(** ** Requests and the [Async] monad *)

Inductive Method : Type :=
| GET
| POST
| DELETE.

Record Request : Type := mkRequest {
  method : Method;
  url : string;
  headers : list (string * string);
  body : option string
}.

Record Response : Type := mkResponse {
  status : nat;
  text : string
}.

(** What an asynchronous function of the connector runs against: the session
    store, the secret the credential provider resolves to, and the remote
    server, which answers a request with a response or not at all. *)
Record World : Type := mkWorld {
  store : YarkStore;
  adminSecret : string;
  remote : Request -> option Response
}.

(** An asynchronous computation: its settlement and the requests it issued,
    in order. *)
Definition Async (A : Type) : Type := World -> result A * list Request.

Definition ret {A} (a : A) : Async A := fun _ => (Ok a, []).

Definition bind {A B} (m : Async A) (k : A -> Async B) : Async B :=
  fun w =>
    match m w with
    | (Ok a, t) => let (r, t') := k a w in (r, (t ++ t')%list)
    | (Throw e, t) => (Throw e, t)
    end.

Notation "x <- m ;; k" := (bind m (fun x => k))
  (at level 61, m at next level, right associativity).

(** A synchronous step that reads the store. *)
Definition sync {A} (f : YarkStore -> result A) : Async A :=
  fun w => (f (store w), []).

(** A synchronous step that may throw. *)
Definition lift {A} (r : result A) : Async A := fun _ => (r, []).

(** [fetch]: the promise resolves with the response whatever its status, and
    rejects when there is none. *)
Definition fetch (request : Request) : Async Response :=
  fun w =>
    match remote w request with
    | Some response => (Ok response, [request])
    | None => (Throw TypeError, [request])
    end.

(** Modelled from the spec: [getAdminSecret] of [./utils], the credential
    provider, which supplies the bearer token asynchronously. *)
Definition getAdminSecret : Async string := fun w => (Ok (adminSecret w), []).

(** [response.json()] *)
Definition json (response : Response) : Async JSON := lift (JSON_parse (text response)).

(** ** The connector *)

(** What [createNewRemoteArchive] resolves to: typed [Archive] in the source,
    with whatever the server sent as [slug], or [undefined] ([None]). *)
Record UncheckedArchive : Type := mkUnchecked {
  unchecked_server : string;
  unchecked_slug : option JSON
}.

(** [createNewRemoteArchive] *)
Definition createNewRemoteArchive (p : CreateArchiveRemotePayload) : Async UncheckedArchive :=
  let payload :=
    JObject [("slug", JString (create_slug p));
             ("path", JString (create_path p));
             ("target", JString (create_target p))] in
  url <- lift (URL_new (create_server p)) ;;
  let url := set_pathname url "/archive" in
  let url := searchParams_set url "intent" "create" in
  secret <- getAdminSecret ;;
  resp <- fetch {| method := POST;
                   url := href url;
                   headers := [("Content-Type", "application/json");
                               ("Authentication", "Bearer " ++ secret)];
                   body := Some (JSON_stringify payload) |} ;;
  resp_json <- json resp ;;
  slug <- lift (get_property resp_json "slug") ;;
  ret {| unchecked_server := create_server p; unchecked_slug := slug |}.

(** [importNewRemoteArchive] *)
Definition importNewRemoteArchive (p : ImportArchiveRemotePayload) : Async UncheckedArchive :=
  let payload :=
    JObject [("slug", JString (import_slug p));
             ("path", JString (import_path p))] in
  url <- lift (URL_new (import_server p)) ;;
  let url := set_pathname url "/archive" in
  let url := searchParams_set url "intent" "existing" in
  secret <- getAdminSecret ;;
  resp <- fetch {| method := POST;
                   url := href url;
                   headers := [("Content-Type", "application/json");
                               ("Authentication", "Bearer " ++ secret)];
                   body := Some (JSON_stringify payload) |} ;;
  resp_json <- json resp ;;
  slug <- lift (get_property resp_json "slug") ;;
  ret {| unchecked_server := import_server p; unchecked_slug := slug |}.

(** [fetchVideosBrief]; the array comes back as parsed, typed [VideoBrief[]]
    without a check. *)
Definition fetchVideosBrief (kind : ArchiveVideoKind) : Async JSON :=
  link <- sync getOpenedArchiveApiLink ;;
  url <- lift (URL_new link) ;;
  let url := searchParams_set url "kind" (archiveVideoKindToString kind) in
  resp <- fetch {| method := GET; url := href url; headers := []; body := None |} ;;
  json resp.

(** [fetchVideoDetails] *)
Definition fetchVideoDetails (id : string) : Async (JSON * string) :=
  link <- sync getOpenedArchiveApiLink ;;
  url <- lift (URL_new link) ;;
  let url := set_pathname url (pathname url ++ "/video/" ++ id) in
  resp <- fetch {| method := GET; url := href url; headers := []; body := None |} ;;
  let rawArchive := text resp in
  json <- lift (JSON_parse rawArchive) ;;
  ret (json, rawArchive).

(** [deleteNote] *)
Definition deleteNote (video_id : string) (note : Note) : Async unit :=
  link <- sync getOpenedArchiveApiLink ;;
  url <- lift (URL_new link) ;;
  let url := set_pathname url (pathname url ++ "/video/" ++ video_id ++ "/note/" ++ note_id note) in
  _ <- fetch {| method := DELETE; url := href url; headers := []; body := None |} ;;
  ret tt.

(** ** The loader of the start page *)

(** Modelled from the spec: [RecentArchive] of [$lib/state], a record of a
    server and a slug. *)
Record RecentArchive : Type := mkRecent {
  recent_server : string;
  recent_slug : string
}.

Definition RecentArchive_json (r : RecentArchive) : JSON :=
  JObject [("server", JString (recent_server r)); ("slug", JString (recent_slug r))].

(** Modelled from the spec: the writer of the [recentArchives] cookie, which
    is not part of the sources at hand; the cookie holds the JSON text of
    the array of records. *)
Definition encodeRecentArchives (l : list RecentArchive) : string :=
  JSON_stringify (JArray (map RecentArchive_json l)).

Record StartData : Type := mkStartData {
  recentArchives : JSON
}.

(** [load] of [routes/start/+layout.server.ts]: [archiveState] is what the
    parent loader gave ([None] for [null] or [undefined]) and [cookies] is
    [cookies.get]. *)
Definition load {S : Type} (archiveState : option S) (cookies : string -> option string)
  : result StartData :=
  match archiveState with
  | Some _ => Throw (Redirect 307 "/archive")
  | None =>
      let recentArchivesRaw := cookies "recentArchives" in
      rbind (match recentArchivesRaw with
             | None => Ok (JArray [])
             | Some raw => JSON_parse raw
             end)
            (fun recentArchives => Ok {| recentArchives := recentArchives |})
  end.

(** The text of the elements of the cookie's array, between its brackets. *)
Definition elements_text (l : list RecentArchive) : string :=
  String.concat "," (map JSON_stringify (map RecentArchive_json l)).

(** The cookies of a request: [recentArchives] with the given value, if any,
    among others. *)
Definition cookie_jar (value : option string) (others : string -> option string)
  : string -> option string :=
  fun name => if (name =? "recentArchives")%string then value else others name.

(** ** Videos and their histories *)

Section VideoUpdates.

(** Modelled from the spec: [Element] and [elementWasUpdated] of [./element],
    the history of a value and the collaborator's test that the history
    records a change. *)
Variable Element : Type.
Variable elementWasUpdated : Element -> bool.

(** [interface VideoDetailed] *)
Record VideoDetailed : Type := mkVideoDetailed {
  uploaded : string;
  width : number;
  height : number;
  title : Element;
  description : Element;
  views : Element;
  likes : Element;
  thumbnail : Element;
  deleted : Element;
  notes : list Note;
  comments : JSON
}.

(** [videoWasUpdated] *)
Definition videoWasUpdated (video : VideoDetailed) : bool :=
  elementWasUpdated (title video)
  || elementWasUpdated (description video)
  || elementWasUpdated (thumbnail video).

End VideoUpdates.

Arguments uploaded {Element} _.
Arguments width {Element} _.
Arguments height {Element} _.
Arguments title {Element} _.
Arguments description {Element} _.
Arguments views {Element} _.
Arguments likes {Element} _.
Arguments thumbnail {Element} _.
Arguments deleted {Element} _.
Arguments notes {Element} _.
Arguments comments {Element} _.
Arguments videoWasUpdated {Element} elementWasUpdated video.

(** ** Sample data *)

Definition sample_archive : Archive := {| server := "https://h"; slug := "abc" |}.

(** The archive of the specification's example, whose server ends in a
    slash. *)
Definition slash_archive : Archive := {| server := "https://h/"; slug := "abc" |}.

Definition sample_world (archive : option Archive) (status : nat) (response : string) : World :=
  {| store := {| openedArchive := archive; recents := [] |};
     adminSecret := "secret";
     remote := fun _ => Some {| status := status; text := response |} |}.

Definition sample_note (stamp : number) (heading : string) : Note :=
  {| note_id := "n1"; note_timestamp := stamp; note_title := heading; note_body := "" |}.

(** The archive of number [n], and the first [n] of them in order. *)
Definition numbered_archive (n : nat) : Archive :=
  {| server := "https://h"; slug := String (ascii_of_nat (48 + n)) "" |}.

Definition numbered_archives (n : nat) : list Archive :=
  map numbered_archive (seq 0 n).

(** A video as fetched, with histories told by their number of entries: one
    entry for the title, the description and the thumbnail, more for the
    counters. *)
Definition fresh_video : VideoDetailed nat :=
  {| uploaded := "2023-01-01T00:00:00"; width := "1920"; height := "1080";
     title := 1; description := 1; views := 5; likes := 4; thumbnail := 1; deleted := 2;
     notes := []; comments := JObject [] |}.

Definition sample_payload : CreateArchiveRemotePayload :=
  {| create_server := "https://h"; create_slug := "abc";
     create_path := "/srv/abc"; create_target := "https://tube/c/x" |}.

(** Two video briefs, as a server lists them. *)
Definition sample_briefs : JSON :=
  JArray [JObject [("id", JString "v1"); ("title", JString "One"); ("thumbnail_id", JString "t1")];
          JObject [("id", JString "v2"); ("title", JString "Two"); ("thumbnail_id", JString "t2")]].

(** A world whose server never answers. *)
Definition silent_world (archive : option Archive) : World :=
  {| store := {| openedArchive := archive; recents := [] |};
     adminSecret := "secret";
     remote := fun _ => None |}.

Definition sample_import : ImportArchiveRemotePayload :=
  {| import_server := "https://h"; import_slug := "abc"; import_path := "/srv/abc" |}.


Definition slash_payload : CreateArchiveRemotePayload :=
  {| create_server := "https://h/"; create_slug := "abc";
     create_path := "/srv/abc"; create_target := "https://tube/c/x" |}.


(** ** Values that [JSON.stringify] writes *)

(** A number literal of the JSON grammar, the whole of it. *)
Definition number_literal (n : number) : bool :=
  match parse_number n with
  | Some (n', r) => (n' =? n)%string && is_empty r
  | None => false
  end.

Fixpoint nodup_keys (keys : list string) : bool :=
  match keys with
  | [] => true
  | k :: r => negb (existsb (String.eqb k) r) && nodup_keys r
  end.

(** The values of the platform: their numbers are literals of the grammar
    and the names of an object are distinct. *)
Fixpoint JSON_wf (j : JSON) : bool :=
  match j with
  | JNumber n => number_literal n
  | JArray items => forallb JSON_wf items
  | JObject members =>
      forallb (fun kv => JSON_wf (snd kv)) members && nodup_keys (map fst members)
  | _ => true
  end.

(** What may follow a value inside a text: nothing, a comma or a closing
    bracket or brace. *)
Definition follows (rest : string) : bool :=
  match rest with
  | "" => true
  | String c _ => ((c =? ",") || (c =? "]") || (c =? "}"))%char
  end.

(** The text of a member of an object. *)
Definition member_text (kv : string * JSON) : string :=
  quote (fst kv) ++ ":" ++ JSON_stringify (snd kv).

(** What [parse_value] owes to a value: from its text, whatever may follow
    it, the value and what follows, with fuel above the length of the
    text. *)
Definition parses_back (v : JSON) : Prop :=
  JSON_wf v = true ->
  forall rest f,
    follows rest = true ->
    String.length (JSON_stringify v) < f ->
    parse_value f (JSON_stringify v ++ rest) = Some (v, rest).

(** ** Predicates on stores and traces *)

(** A store as the calls of [setCurrentArchive] leave it: at most
    [RECENTS_MAX] recents, none before an archive is opened, and the opened
    archive as the latest of them. *)
Definition store_wf (st : YarkStore) : Prop :=
  List.length (recents st) <= RECENTS_MAX
  /\ match openedArchive st with
     | None => recents st = []
     | Some archive => exists older, recents st = (older ++ [archive])%list
     end.

(** The requests of a trace are at most one, of the given method. *)
Definition single_request (m : Method) (trace : list Request) : Prop :=
  List.length trace <= 1 /\ Forall (fun r => method r = m) trace.

(** * Properties *)

(** ** The platform models at work *)

Example URL_new_keeps_empty_segment :
  URL_new "https://h//archive/abc"
  = Ok {| origin := "https://h"; pathname := "//archive/abc"; search := ""; hash := "" |}.
Proof. reflexivity. Qed.

Example URL_new_without_path :
  URL_new "http://localhost:7666?x=1#top"
  = Ok {| origin := "http://localhost:7666"; pathname := "/"; search := "?x=1"; hash := "#top" |}.
Proof. reflexivity. Qed.

Example URL_new_relative : URL_new "/archive/abc" = Throw TypeError.
Proof. reflexivity. Qed.

Example searchParams_set_replaces :
  href (searchParams_set
          {| origin := "https://h"; pathname := "/a"; search := "?kind=videos&page=2&kind=x";
             hash := "" |}
          "kind" "shorts")
  = "https://h/a?kind=shorts&page=2".
Proof. reflexivity. Qed.

Example URL_new_default_port :
  URL_new "https://h:443/base"
  = Ok {| origin := "https://h"; pathname := "/base"; search := ""; hash := "" |}.
Proof. reflexivity. Qed.

Example URL_new_invalid :
  URL_new "https://a b" = Throw TypeError /\ URL_new "https://h:99999" = Throw TypeError.
Proof. split; reflexivity. Qed.

Example set_pathname_encodes :
  map normalize_path
    ["/archive"; "/archive/abc/video/a b"; "/archive/abc/video/a?b";
     "/archive/abc/video/../x"; "/archive/abc/video/v1/note/../../x"; "//archive/abc"]
  = ["/archive"; "/archive/abc/video/a%20b"; "/archive/abc/video/a%3Fb";
     "/archive/abc/x"; "/archive/abc/video/x"; "//archive/abc"].
Proof. reflexivity. Qed.

Example searchParams_set_encodes :
  href (searchParams_set
          {| origin := "https://h"; pathname := "/"; search := "?x=a/b"; hash := "" |}
          "intent" "create")
  = "https://h/?x=a%2Fb&intent=create".
Proof. reflexivity. Qed.

Example JSON_parse_sample :
  JSON_parse " [1, -2.5e3 ,true,null, [], {} ] "
  = Ok (JArray [JNumber "1"; JNumber "-2.5e3"; JBool true; JNull; JArray []; JObject []]).
Proof. reflexivity. Qed.

Example JSON_parse_trailing_comma : JSON_parse "[1,]" = Throw SyntaxError.
Proof. reflexivity. Qed.

Example JSON_parse_stringify_sample :
  JSON_parse
    (JSON_stringify
       (JObject [("id", JString "n1"); ("timestamp", JNumber "12");
                 ("title", JString (String dquote (String backslash (String "010" (String "009" "x")))));
                 ("tags", JArray [JString "a/b"; JBool false])]))
  = Ok (JObject [("id", JString "n1"); ("timestamp", JNumber "12");
                 ("title", JString (String dquote (String backslash (String "010" (String "009" "x")))));
                 ("tags", JArray [JString "a/b"; JBool false])]).
Proof. reflexivity. Qed.

(** ** The video kinds *)

(** C4. [archiveVideoKindToString] is defined on the three kinds, sends them
    to [videos], [livestreams] and [shorts], and sends distinct kinds to
    distinct strings. *)
Theorem archiveVideoKindToString_injective :
  archiveVideoKindToString Videos = "videos"
  /\ archiveVideoKindToString Livestreams = "livestreams"
  /\ archiveVideoKindToString Shorts = "shorts"
  /\ (forall kind, exists! s, archiveVideoKindToString kind = s)
  /\ (forall k1 k2,
        archiveVideoKindToString k1 = archiveVideoKindToString k2 -> k1 = k2).
Proof.
  repeat split.
  - intros kind; exists (archiveVideoKindToString kind); split; [reflexivity | auto].
  - intros [] [] H; solve [reflexivity | discriminate H].
Qed.

(** ** The session store *)

Lemma tl_skipn {A} (l : list A) (n : nat) : tl (skipn n l) = skipn (S n) l.
Proof.
  revert l; induction n as [| n IH]; intros [| x l]; try reflexivity.
  exact (IH l).
Qed.

Lemma setCurrentArchive_all_snoc (calls : list Archive) (archive : Archive) (c : Client) :
  setCurrentArchive_all (calls ++ [archive]) c
  = setCurrentArchive archive (setCurrentArchive_all calls c).
Proof. unfold setCurrentArchive_all; rewrite fold_left_app; reflexivity. Qed.

Lemma recents_setCurrentArchive (archive : Archive) (c : Client) :
  recents (yarkStore (setCurrentArchive archive c))
  = ((if (RECENTS_MAX <=? List.length (recents (yarkStore c)))%nat
      then tl (recents (yarkStore c))
      else recents (yarkStore c)) ++ [archive])%list.
Proof.
  unfold setCurrentArchive, setCurrentArchive_update, shift, push.
  cbn [yarkStore recents openedArchive].
  destruct (Nat.leb RECENTS_MAX _); reflexivity.
Qed.

Lemma openedArchive_setCurrentArchive (archive : Archive) (c : Client) :
  openedArchive (yarkStore (setCurrentArchive archive c)) = Some archive.
Proof.
  unfold setCurrentArchive, setCurrentArchive_update.
  cbn [yarkStore recents openedArchive].
  destruct (Nat.leb RECENTS_MAX _); reflexivity.
Qed.

(** The recents are the last [RECENTS_MAX] archives passed, oldest first. *)
Lemma recents_setCurrentArchive_all (start : string) (calls : list Archive) :
  recents (yarkStore (setCurrentArchive_all calls (initialClient start)))
  = skipn (List.length calls - RECENTS_MAX) calls.
Proof.
  induction calls as [| archive calls IH] using rev_ind; [reflexivity |].
  rewrite setCurrentArchive_all_snoc, recents_setCurrentArchive, IH.
  rewrite length_skipn, length_app, skipn_app; cbn [List.length].
  unfold RECENTS_MAX.
  destruct (Nat.leb_spec 30 (List.length calls - (List.length calls - 30))) as [H | H].
  - rewrite tl_skipn.
    replace (List.length calls + 1 - 30) with (S (List.length calls - 30)) by lia.
    replace (S (List.length calls - 30) - List.length calls) with 0 by lia.
    reflexivity.
  - replace (List.length calls + 1 - 30) with 0 by lia.
    replace (List.length calls - 30) with 0 by lia.
    reflexivity.
Qed.

(** C1. Starting from the initial store, after any sequence of
    [setCurrentArchive] calls the call that follows leaves its archive as
    the open one; the recents never hold more than 30 entries, before or
    after it; when they hold 30, the oldest (the first) goes and the new
    archive is appended at the end, and below 30 it is appended to all of
    them; the recents are the last 30 archives passed, in order. *)
Theorem setCurrentArchive_sequence (start : string) (calls : list Archive) (archive : Archive) :
  let before := setCurrentArchive_all calls (initialClient start) in
  let after := setCurrentArchive_all (calls ++ [archive]) (initialClient start) in
  after = setCurrentArchive archive before
  /\ openedArchive (yarkStore after) = Some archive
  /\ List.length (recents (yarkStore before)) <= 30
  /\ List.length (recents (yarkStore after)) <= 30
  /\ (List.length (recents (yarkStore before)) = 30 ->
      recents (yarkStore after) = (tl (recents (yarkStore before)) ++ [archive])%list)
  /\ (List.length (recents (yarkStore before)) < 30 ->
      recents (yarkStore after) = (recents (yarkStore before) ++ [archive])%list)
  /\ recents (yarkStore after)
     = skipn (List.length (calls ++ [archive]) - 30) (calls ++ [archive])%list.
Proof.
  cbv zeta.
  assert (Hlen : forall l, List.length
            (recents (yarkStore (setCurrentArchive_all l (initialClient start)))) <= 30).
  { intros l; rewrite recents_setCurrentArchive_all, length_skipn; unfold RECENTS_MAX; lia. }
  rewrite setCurrentArchive_all_snoc.
  split; [reflexivity |]; split; [apply openedArchive_setCurrentArchive |].
  split; [apply Hlen |].
  split; [rewrite <- setCurrentArchive_all_snoc; apply Hlen |].
  split; [| split].
  - intros H; rewrite recents_setCurrentArchive, H; reflexivity.
  - intros H; rewrite recents_setCurrentArchive.
    destruct (Nat.leb_spec RECENTS_MAX
                (List.length (recents (yarkStore (setCurrentArchive_all calls (initialClient start))))))
      as [H' | H']; [unfold RECENTS_MAX in H'; lia | reflexivity].
  - rewrite <- setCurrentArchive_all_snoc; apply recents_setCurrentArchive_all.
Qed.

(** Thirty calls fill the recents, and the call after them drops the archive
    of the first call. *)
Lemma setCurrentArchive_sequence_witness :
  List.length (recents (yarkStore (setCurrentArchive_all (numbered_archives 30)
                                     (initialClient "/start")))) = 30
  /\ recents (yarkStore (setCurrentArchive_all (numbered_archives 30 ++ [numbered_archive 30])
                           (initialClient "/start")))
     = (map numbered_archive (seq 1 29) ++ [numbered_archive 30])%list.
Proof.
  split; [reflexivity |].
  pose proof (setCurrentArchive_sequence "/start" (numbered_archives 30) (numbered_archive 30))
    as (_ & _ & _ & _ & Hfull & _).
  exact (Hfull eq_refl).
Defined.

(** ** Updated videos *)

(** C7. [videoWasUpdated] answers [true] exactly when the history of the
    title, of the description or of the thumbnail reports a change to
    [elementWasUpdated]; it answers [false] when none of the three does, and
    the histories of the views, of the likes and of the deleted flag (as
    every other field) have no part in the answer. *)
Theorem videoWasUpdated_iff {Element : Type} (elementWasUpdated : Element -> bool)
    (video : VideoDetailed Element) :
  (videoWasUpdated elementWasUpdated video = true <->
     elementWasUpdated (title video) = true
     \/ elementWasUpdated (description video) = true
     \/ elementWasUpdated (thumbnail video) = true)
  /\ (elementWasUpdated (title video) = false ->
      elementWasUpdated (description video) = false ->
      elementWasUpdated (thumbnail video) = false ->
      videoWasUpdated elementWasUpdated video = false)
  /\ (forall other : VideoDetailed Element,
        title other = title video ->
        description other = description video ->
        thumbnail other = thumbnail video ->
        videoWasUpdated elementWasUpdated other = videoWasUpdated elementWasUpdated video).
Proof.
  unfold videoWasUpdated; repeat split.
  - intros H; apply orb_true_iff in H as [H | H]; [apply orb_true_iff in H|]; tauto.
  - intros [H | [H | H]]; rewrite H; rewrite ?orb_true_r; reflexivity.
  - intros -> -> ->; reflexivity.
  - intros other -> -> ->; reflexivity.
Qed.

(** A video whose counters moved and whose title, description and thumbnail
    did not is not reported as updated. *)
Lemma videoWasUpdated_iff_witness :
  videoWasUpdated (Nat.ltb 1) fresh_video = false.
Proof.
  exact (proj1 (proj2 (videoWasUpdated_iff (Nat.ltb 1) fresh_video)) eq_refl eq_refl eq_refl).
Defined.

(** ** Operations on the opened archive *)

Ltac unfold_async :=
  unfold fetchVideosBrief, fetchVideoDetails, deleteNote, createNewRemoteArchive,
    getVideoThumbnailApiLink, getVideoFileApiLink,
    json, bind, sync, lift, fetch, ret, getAdminSecret,
    getOpenedArchiveApiLink, getOpenedArchiveAlways, rbind.

Lemma getOpenedArchiveApiLink_opened (st : YarkStore) (archive : Archive) :
  openedArchive st = Some archive ->
  getOpenedArchiveApiLink st = Ok (getArchiveApiLink archive).
Proof. unfold_async; intros ->; reflexivity. Qed.

Lemma getOpenedArchiveApiLink_closed (st : YarkStore) :
  openedArchive st = None ->
  getOpenedArchiveApiLink st = Throw (Error not_open_message).
Proof. unfold_async; intros ->; reflexivity. Qed.

(** C2. [getOpenedArchiveAlways] throws exactly when the store holds no
    opened archive, the error being the one of its message, and returns the
    opened archive otherwise; with no archive opened each operation on the
    opened archive fails with that error, before any request is issued. *)
Theorem getOpenedArchiveAlways_throws_iff (w : World) :
  ((exists e, getOpenedArchiveAlways (store w) = Throw e) <-> openedArchive (store w) = None)
  /\ (forall e, getOpenedArchiveAlways (store w) = Throw e -> e = Error not_open_message)
  /\ (forall archive,
        openedArchive (store w) = Some archive <->
        getOpenedArchiveAlways (store w) = Ok archive)
  /\ (openedArchive (store w) = None ->
      forall (kind : ArchiveVideoKind) (id thumbnail_id : string) (note : Note),
        fetchVideosBrief kind w = (Throw (Error not_open_message), [])
        /\ fetchVideoDetails id w = (Throw (Error not_open_message), [])
        /\ deleteNote id note w = (Throw (Error not_open_message), [])
        /\ getVideoThumbnailApiLink thumbnail_id (store w) = Throw (Error not_open_message)
        /\ getVideoFileApiLink id (store w) = Throw (Error not_open_message)).
Proof.
  unfold getOpenedArchiveAlways at 1 2 3.
  destruct (openedArchive (store w)) as [archive |] eqn:Hopen.
  - split; [split; [intros [e H]; discriminate H | discriminate] |].
    split; [intros e H; discriminate H |].
    split; [| discriminate].
    intros a; split; intros H; injection H as ->; reflexivity.
  - split; [split; [reflexivity | eexists; reflexivity] |].
    split; [intros e H; injection H as <-; reflexivity |].
    split; [intros a; split; discriminate |].
    intros _ kind id thumbnail_id note.
    unfold_async; rewrite Hopen; repeat split.
Qed.

(** With no archive opened, the list of shorts is refused without a
    request. *)
Lemma getOpenedArchiveAlways_throws_iff_witness :
  openedArchive (store (sample_world None 200 "[]")) = None
  /\ fetchVideosBrief Shorts (sample_world None 200 "[]") = (Throw (Error not_open_message), []).
Proof.
  split; [reflexivity |].
  pose proof (getOpenedArchiveAlways_throws_iff (sample_world None 200 "[]"))
    as (_ & _ & _ & Hclosed).
  exact (proj1 (Hclosed eq_refl Shorts "v1" "t1" (sample_note "12" "intro"))).
Defined.

(** ** Addresses *)

Lemma append_assoc (a b c : string) : (a ++ b) ++ c = a ++ (b ++ c).
Proof. induction a as [| x a IH]; cbn; [reflexivity | rewrite IH; reflexivity]. Qed.

Lemma append_nil_r (a : string) : a ++ "" = a.
Proof. induction a as [| x a IH]; cbn; [reflexivity | rewrite IH; reflexivity]. Qed.

Lemma length_append (a b : string) :
  String.length (a ++ b) = String.length a + String.length b.
Proof. induction a as [| x a IH]; cbn; [reflexivity | rewrite IH; reflexivity]. Qed.

Lemma append_cancel_l (a b c : string) : a ++ b = a ++ c -> b = c.
Proof.
  induction a as [| x a IH]; cbn; [exact (fun H => H) |].
  intros H; injection H as H; exact (IH H).
Qed.

Lemma append_cancel_r (a b c : string) : a ++ c = b ++ c -> a = b.
Proof.
  revert b; induction a as [| x a IH]; intros [| y b] H; cbn in H.
  - reflexivity.
  - apply (f_equal String.length) in H; cbn in H; rewrite length_append in H; lia.
  - apply (f_equal String.length) in H; cbn in H; rewrite length_append in H; lia.
  - injection H as -> H; rewrite (IH _ H); reflexivity.
Qed.






Lemma strip_prefix_app (p s r : string) : strip_prefix p s = Some r -> s = p ++ r.
Proof.
  revert s; induction p as [| a p IH]; intros s; cbn.
  - intros H; injection H as ->; reflexivity.
  - destruct s as [| b s]; [discriminate |].
    destruct (Ascii.eqb_spec a b) as [-> | _]; [| discriminate].
    intros H; rewrite (IH _ H); reflexivity.
Qed.

Lemma string_forall_app (p : ascii -> bool) (a b : string) :
  string_forall p (a ++ b) = string_forall p a && string_forall p b.
Proof.
  induction a as [| c a IH]; cbn; [reflexivity |].
  rewrite IH, andb_assoc; reflexivity.
Qed.





(** *** The setter of the path, on plain segments *)












Lemma params_set_In (name value : string) (params : list (string * string)) :
  In (name, value) (params_set name value params)
  /\ forall v, In (name, v) (params_set name value params) -> v = value.
Proof.
  induction params as [| [n v'] params [IH1 IH2]]; cbn.
  - split; [left; reflexivity |].
    intros v [H | []]; injection H as <-; reflexivity.
  - destruct (String.eqb_spec n name) as [-> | Hn]; cbn.
    + split; [left; reflexivity |].
      intros v [H | H]; [injection H as <-; reflexivity |].
      apply filter_In in H as [_ H]; cbn in H.
      rewrite String.eqb_refl in H; discriminate H.
    + split; [right; exact IH1 |].
      intros v [H | H]; [injection H as -> _; contradiction Hn; reflexivity |].
      exact (IH2 v H).
Qed.

(** ** Requests of the connector *)







(** C10. Two notes of the same id are deleted alike: [deleteNote] issues the
    same requests and settles the same way for both, in every world and for
    every video id, so the timestamp, the title and the body of the note
    have no part in the request. *)
Theorem deleteNote_same_id (video_id : string) (n1 n2 : Note) (w : World) :
  note_id n1 = note_id n2 ->
  deleteNote video_id n1 w = deleteNote video_id n2 w.
Proof. intros H; unfold deleteNote; rewrite H; reflexivity. Qed.

(** Two notes of one id that differ in timestamp and title. *)
Lemma deleteNote_same_id_witness :
  note_id (sample_note "12" "intro") = note_id (sample_note "300" "credits")
  /\ deleteNote "v1" (sample_note "12" "intro") (sample_world (Some sample_archive) 204 "")
     = deleteNote "v1" (sample_note "300" "credits") (sample_world (Some sample_archive) 204 "").
Proof.
  split; [reflexivity |].
  exact (deleteNote_same_id "v1" (sample_note "12" "intro") (sample_note "300" "credits")
           (sample_world (Some sample_archive) 204 "") eq_refl).
Defined.




(** The address that [createNewRemoteArchive] posts to. *)
Lemma createNewRemoteArchive_run (p : CreateArchiveRemotePayload) (w : World) (u : URL) :
  URL_new (create_server p) = Ok u ->
  map url (snd (createNewRemoteArchive p w))
  = [href (searchParams_set (set_pathname u "/archive") "intent" "create")].
Proof.
  intros Hurl; unfold_async; rewrite Hurl.
  destruct (remote w _) as [response |]; [| reflexivity].
  destruct (JSON_parse (text response)) as [resp_json |]; [| reflexivity].
  destruct (get_property resp_json "slug"); reflexivity.
Qed.

(** The request of [fetchVideosBrief] and its settlement, for any opened
    archive whose link parses as an address. *)
Lemma fetchVideosBrief_run (kind : ArchiveVideoKind) (w : World) (archive : Archive) (u : URL) :
  openedArchive (store w) = Some archive ->
  URL_new (getArchiveApiLink archive) = Ok u ->
  let request :=
    {| method := GET;
       url := href (searchParams_set u "kind" (archiveVideoKindToString kind));
       headers := [];
       body := None |} in
  snd (fetchVideosBrief kind w) = [request]
  /\ (forall response parsed,
        remote w request = Some response ->
        JSON_parse (text response) = Ok parsed ->
        fst (fetchVideosBrief kind w) = Ok parsed).
Proof.
  intros Hopen Hurl request; split.
  - unfold_async; rewrite Hopen, Hurl; fold request.
    destruct (remote w request); reflexivity.
  - intros response parsed Hresp Hparsed.
    unfold_async; rewrite Hopen, Hurl; fold request; rewrite Hresp, Hparsed.
    reflexivity.
Qed.

(** C3. The example of the specification, run: with the server
    [https://h/] and the slug [abc] opened, the link of the archive is the
    server, [/archive/] and the slug joined as texts, the empty segment
    stays in the parsed address, and [fetchVideosBrief Shorts] issues one
    GET, of [https://h//archive/abc?kind=shorts]; this is not the
    [https://h/archive/abc?kind=shorts] of the example.  Given the same
    server, [createNewRemoteArchive] posts to
    [https://h/archive?intent=create]: it sets the path of the parsed
    server.  When the response text parses as a JSON array,
    [fetchVideosBrief] settles with that array, the elements as parsed and
    in their order. *)
Theorem fetchVideosBrief_slash_request (rs : list Archive) (secret : string)
    (answer : Request -> option Response) :
  let w :=
    {| store := {| openedArchive := Some slash_archive; recents := rs |};
       adminSecret := secret;
       remote := answer |} in
  let request :=
    {| method := GET;
       url := "https://h//archive/abc?kind=shorts";
       headers := [];
       body := None |} in
  getArchiveApiLink slash_archive = "https://h//archive/abc"
  /\ snd (fetchVideosBrief Shorts w) = [request]
  /\ snd (fetchVideosBrief Shorts w)
     <> [{| method := GET;
            url := "https://h/archive/abc?kind=shorts";
            headers := [];
            body := None |}]
  /\ map url (snd (createNewRemoteArchive slash_payload w))
     = ["https://h/archive?intent=create"]
  /\ (forall response items,
        answer request = Some response ->
        JSON_parse (text response) = Ok (JArray items) ->
        fst (fetchVideosBrief Shorts w) = Ok (JArray items)).
Proof.
  intros w request.
  pose proof (fetchVideosBrief_run Shorts w slash_archive _ eq_refl eq_refl) as [Hreq Hres].
  split; [reflexivity |].
  split; [exact Hreq |].
  split; [rewrite Hreq; discriminate |].
  split; [exact (createNewRemoteArchive_run slash_payload w _ eq_refl) |].
  intros response items Hresp Hitems.
  exact (Hres response (JArray items) Hresp Hitems).
Qed.

(** ** The JSON parser and its fuel *)

Lemma length_skip_ws (s : string) : String.length (skip_ws s) <= String.length s.
Proof.
  induction s as [| c s IH]; cbn; [lia |].
  destruct (is_ws c); cbn; lia.
Qed.

Lemma length_after_char (s : string) : String.length (after_char s) <= String.length s.
Proof.
  unfold after_char; pose proof (length_skip_ws s) as H.
  destruct (skip_ws s); cbn in *; lia.
Qed.

Lemma length_after_char_lt (c : ascii) (s : string) :
  starts_with c s = true -> String.length (after_char s) < String.length s.
Proof.
  unfold starts_with, after_char; pose proof (length_skip_ws s) as H.
  destruct (skip_ws s); [discriminate |]; cbn in *; lia.
Qed.

(** A string literal is read up to its closing quote, which it consumes. *)
Lemma length_parse_chars (s : string) :
  forall str r, parse_chars s = Some (str, r) -> String.length r < String.length s.
Proof.
  remember (String.length s) as n eqn:Hn.
  revert s Hn; induction n as [n IH] using lt_wf_ind; intros s Hn str r.
  destruct s as [| c s]; [discriminate |]; cbn [parse_chars].
  assert (Hrec : forall c' t, String.length t < n ->
            cons_char c' (parse_chars t) = Some (str, r) -> String.length r < String.length t).
  { intros c' t Ht H; destruct (parse_chars t) as [[str' r'] |] eqn:Hp; [| discriminate].
    injection H as _ <-; exact (IH _ Ht t eq_refl _ _ Hp). }
  cbn [String.length] in *.
  destruct (c =? dquote)%char; [intros H; injection H as _ <-; lia |].
  destruct (c =? backslash)%char.
  - destruct s as [| e s]; [discriminate |].
    destruct (e =? "u")%char.
    + destruct s as [| h1 [| h2 [| h3 [| h4 s]]]]; try discriminate.
      destruct (unicode_escape h1 h2 h3 h4); [| discriminate].
      intros H; apply Hrec in H; cbn [String.length] in *; lia.
    + destruct (unescape e); [| discriminate].
      intros H; apply Hrec in H; cbn [String.length] in *; lia.
  - destruct (is_control c); [discriminate |].
    intros H; apply Hrec in H; lia.
Qed.

Lemma length_strip_prefix (p s r : string) :
  strip_prefix p s = Some r -> String.length r <= String.length s.
Proof.
  revert s; induction p as [| a p IH]; intros s; cbn.
  - intros H; injection H as ->; lia.
  - destruct s as [| b s]; [discriminate |].
    destruct (a =? b)%char; [| discriminate].
    intros H; apply IH in H; cbn; lia.
Qed.

Lemma length_span_digits (s : string) :
  String.length (snd (span_digits s)) <= String.length s.
Proof.
  induction s as [| c s IH]; cbn; [lia |].
  destruct (is_digit c); [| cbn; lia].
  destruct (span_digits s); cbn in *; lia.
Qed.

Lemma length_parse_digits (s d r : string) :
  parse_digits s = Some (d, r) -> String.length r <= String.length s.
Proof.
  unfold parse_digits; pose proof (length_span_digits s) as H.
  destruct (span_digits s) as [[| c d'] r']; [discriminate |].
  intros E; injection E as _ <-; exact H.
Qed.

Lemma length_parse_number (s : string) (n : number) (r : string) :
  parse_number s = Some (n, r) -> String.length r <= String.length s.
Proof.
  unfold parse_number.
  assert (H1 : String.length (snd (scan_sign s)) <= String.length s).
  { unfold scan_sign; destruct s as [| c s]; [cbn; lia |].
    destruct (c =? "-")%char; cbn; lia. }
  destruct (scan_sign s) as [sign s1]; cbn [snd] in H1.
  destruct (scan_int s1) as [[int s2] |] eqn:H2; [| discriminate].
  assert (String.length s2 <= String.length s1).
  { unfold scan_int in H2; destruct s1 as [| c t]; [discriminate |].
    destruct (c =? "0")%char; [injection H2 as _ <-; cbn; lia |].
    exact (length_parse_digits _ _ _ H2). }
  destruct (scan_frac s2) as [[frac s3] |] eqn:H3; [| discriminate].
  assert (String.length s3 <= String.length s2).
  { unfold scan_frac in H3; destruct s2 as [| c t]; [injection H3 as _ <-; lia |].
    destruct (c =? ".")%char; [| injection H3 as _ <-; lia].
    destruct (parse_digits t) as [[d t'] |] eqn:Hd; [| discriminate].
    injection H3 as _ <-; apply length_parse_digits in Hd; cbn; lia. }
  destruct (scan_exp s3) as [[exp s4] |] eqn:H4; [| discriminate].
  assert (String.length s4 <= String.length s3).
  { unfold scan_exp in H4; destruct s3 as [| c t]; [injection H4 as _ <-; lia |].
    destruct ((c =? "e") || (c =? "E"))%char; [| injection H4 as _ <-; lia].
    assert (Ht : forall t0, String.length
              (snd (match t0 with
                    | String c' r' =>
                        if ((c' =? "+") || (c' =? "-"))%char then (String c' "", r') else ("", t0)
                    | "" => ("", t0)
                    end)) <= String.length t0).
    { intros [| c' r']; [cbn; lia |]. destruct ((c' =? "+") || (c' =? "-"))%char; cbn; lia. }
    specialize (Ht t).
    destruct (match t with String _ _ => _ | "" => _ end) as [esign t'].
    destruct (parse_digits t') as [[d t''] |] eqn:Hd; [| discriminate].
    injection H4 as _ <-; apply length_parse_digits in Hd; cbn in *; lia. }
  intros E; injection E as _ <-; lia.
Qed.

Lemma length_parse_literal (s : string) (v : JSON) (r : string) :
  parse_literal s = Some (v, r) -> String.length r <= String.length s.
Proof.
  unfold parse_literal.
  destruct (strip_prefix "true" s) eqn:H1;
    [intros E; injection E as _ <-; exact (length_strip_prefix _ _ _ H1) |].
  destruct (strip_prefix "false" s) eqn:H2;
    [intros E; injection E as _ <-; exact (length_strip_prefix _ _ _ H2) |].
  destruct (strip_prefix "null" s) eqn:H3;
    [intros E; injection E as _ <-; exact (length_strip_prefix _ _ _ H3) |].
  destruct (parse_number s) as [[n r'] |] eqn:H4; [| discriminate].
  intros E; injection E as _ <-; exact (length_parse_number _ _ _ H4).
Qed.

(** By induction on the fuel, for the three parsers at once. *)
Lemma parse_fuel_free (f : nat) :
  fuel_free parse_value f
  /\ (forall acc, fuel_free (fun f s => parse_elements f s acc) f)
  /\ (forall acc, fuel_free (fun f s => parse_members f s acc) f).
Proof.
  unfold fuel_free.
  induction f as [| f (IHv & IHe & IHm)];
    [split; [| split]; intros; discriminate |].
  split; [| split].
  - intros s v r; cbn [parse_value].
    destruct (starts_with "{" s) eqn:Hobj.
    { pose proof (length_after_char_lt _ _ Hobj) as L1.
      destruct (starts_with "}" (after_char s)) eqn:Hend.
      - pose proof (length_after_char_lt _ _ Hend) as L2.
        intros H; injection H as <- <-; split; [lia |].
        intros [| f'] Hf; [lia |]; cbn [parse_value]; rewrite Hobj, Hend; reflexivity.
      - intros H; destruct (IHm _ _ _ _ H) as [L2 Hfree]; split; [lia |].
        intros [| f'] Hf; [lia |]; cbn [parse_value]; rewrite Hobj, Hend.
        apply Hfree; lia. }
    destruct (starts_with "[" s) eqn:Harr.
    { pose proof (length_after_char_lt _ _ Harr) as L1.
      destruct (starts_with "]" (after_char s)) eqn:Hend.
      - pose proof (length_after_char_lt _ _ Hend) as L2.
        intros H; injection H as <- <-; split; [lia |].
        intros [| f'] Hf; [lia |]; cbn [parse_value]; rewrite Hobj, Harr, Hend; reflexivity.
      - intros H; destruct (IHe _ _ _ _ H) as [L2 Hfree]; split; [lia |].
        intros [| f'] Hf; [lia |]; cbn [parse_value]; rewrite Hobj, Harr, Hend.
        apply Hfree; lia. }
    destruct (starts_with dquote s) eqn:Hstr.
    { pose proof (length_after_char_lt _ _ Hstr) as L1.
      destruct (parse_chars (after_char s)) as [[str r'] |] eqn:Hchars; [| discriminate].
      pose proof (length_parse_chars _ _ _ Hchars) as L2.
      intros H; injection H as <- <-; split; [lia |].
      intros [| f'] Hf; [lia |]; cbn [parse_value]; rewrite Hobj, Harr, Hstr, Hchars; reflexivity. }
    intros H; pose proof (length_parse_literal _ _ _ H) as L1.
    pose proof (length_skip_ws s) as L2; split; [lia |].
    intros [| f'] Hf; [lia |]; cbn [parse_value]; rewrite Hobj, Harr, Hstr; exact H.
  - intros acc s v r; cbn [parse_elements].
    destruct (parse_value f s) as [[v1 r1] |] eqn:Hv; [| discriminate].
    destruct (IHv _ _ _ Hv) as [L1 Hfree1].
    destruct (starts_with "," r1) eqn:Hcomma.
    { pose proof (length_after_char_lt _ _ Hcomma) as L2.
      intros H; destruct (IHe _ _ _ _ H) as [L3 Hfree2]; split; [lia |].
      intros [| f'] Hf; [lia |]; cbn [parse_elements].
      rewrite (Hfree1 f') by lia; rewrite Hcomma; apply Hfree2; lia. }
    destruct (starts_with "]" r1) eqn:Hend; [| discriminate].
    pose proof (length_after_char_lt _ _ Hend) as L2.
    intros H; injection H as <- <-; split; [lia |].
    intros [| f'] Hf; [lia |]; cbn [parse_elements].
    rewrite (Hfree1 f') by lia; rewrite Hcomma, Hend; reflexivity.
  - intros acc s v r; cbn [parse_members].
    destruct (starts_with dquote s) eqn:Hkey; [| discriminate].
    pose proof (length_after_char_lt _ _ Hkey) as L0.
    destruct (parse_chars (after_char s)) as [[k r0] |] eqn:Hchars; [| discriminate].
    pose proof (length_parse_chars _ _ _ Hchars) as L0'.
    destruct (starts_with ":" r0) eqn:Hcolon; [| discriminate].
    pose proof (length_after_char_lt _ _ Hcolon) as L0''.
    destruct (parse_value f (after_char r0)) as [[v1 r1] |] eqn:Hv; [| discriminate].
    destruct (IHv _ _ _ Hv) as [L1 Hfree1].
    destruct (starts_with "," r1) eqn:Hcomma.
    { pose proof (length_after_char_lt _ _ Hcomma) as L2.
      intros H; destruct (IHm _ _ _ _ H) as [L3 Hfree2]; split; [lia |].
      intros [| f'] Hf; [lia |]; cbn [parse_members].
      rewrite Hkey, Hchars, Hcolon, (Hfree1 f') by lia; rewrite Hcomma; apply Hfree2; lia. }
    destruct (starts_with "}" r1) eqn:Hend; [| discriminate].
    pose proof (length_after_char_lt _ _ Hend) as L2.
    intros H; injection H as <- <-; split; [lia |].
    intros [| f'] Hf; [lia |]; cbn [parse_members].
    rewrite Hkey, Hchars, Hcolon, (Hfree1 f') by lia; rewrite Hcomma, Hend; reflexivity.
Qed.

(** The fuel [JSON_parse] starts with is enough: what [parse_value] finds with
    some fuel, it finds with that fuel. *)
Lemma parse_value_fuel (f : nat) (s : string) (v : JSON) (r : string) :
  parse_value f s = Some (v, r) ->
  parse_value (S (String.length s)) s = Some (v, r).
Proof.
  intros H; destruct (proj1 (parse_fuel_free f) _ _ _ H) as [_ Hfree].
  apply Hfree; lia.
Qed.

Lemma JSON_parse_any_fuel (f : nat) (text : string) (v : JSON) (r : string) :
  parse_value f text = Some (v, r) -> skip_ws r = "" -> JSON_parse text = Ok v.
Proof.
  intros H Hr; unfold JSON_parse.
  rewrite (parse_value_fuel _ _ _ _ H), Hr; reflexivity.
Qed.

(** ** The cookie of the recent archives *)

(** Reading back what [escape_char] wrote gives the character. *)
Lemma parse_chars_escape_char (c : ascii) (rest : string) :
  parse_chars (escape_char c ++ rest) = cons_char c (parse_chars rest).
Proof.
  destruct c as [[] [] [] [] [] [] [] []]; reflexivity.
Qed.

(** Reading back an escaped string up to its closing quote gives the string. *)
Lemma parse_chars_escape (s rest : string) :
  parse_chars (escape s ++ String dquote rest) = Some (s, rest).
Proof.
  induction s as [| c s IH]; [reflexivity |].
  cbn [escape]; rewrite append_assoc, parse_chars_escape_char, IH; reflexivity.
Qed.

Lemma quote_append (s rest : string) :
  quote s ++ rest = String dquote (escape s ++ String dquote rest).
Proof. unfold quote; cbn [append]; rewrite append_assoc; reflexivity. Qed.

Lemma starts_with_cons (c c' : ascii) (r : string) :
  is_ws c' = false -> starts_with c (String c' r) = (c' =? c)%char.
Proof. intros H; unfold starts_with; cbn [skip_ws]; rewrite H; reflexivity. Qed.

Lemma after_char_cons (c' : ascii) (r : string) :
  is_ws c' = false -> after_char (String c' r) = r.
Proof. intros H; unfold after_char; cbn [skip_ws]; rewrite H; reflexivity. Qed.

Ltac step_chars :=
  repeat (rewrite ?starts_with_cons, ?after_char_cons by reflexivity;
          cbn [Ascii.eqb Bool.eqb andb dquote]).

(** A quoted string parses to the string it quotes. *)
Lemma parse_value_string (fuel : nat) (s rest : string) :
  parse_value (S fuel) (quote s ++ rest) = Some (JString s, rest).
Proof.
  rewrite quote_append; cbn [parse_value]; step_chars.
  rewrite parse_chars_escape; reflexivity.
Qed.

(** [JSON.parse] undoes [JSON.stringify] on every string. *)
Lemma JSON_parse_stringify_string (s : string) :
  JSON_parse (JSON_stringify (JString s)) = Ok (JString s).
Proof.
  unfold JSON_parse; cbn [JSON_stringify].
  rewrite <- (append_nil_r (quote s)) at 2.
  rewrite parse_value_string; reflexivity.
Qed.

(** The text of a record, member by member. *)
Lemma record_text_eq (r : RecentArchive) (rest : string) :
  JSON_stringify (RecentArchive_json r) ++ rest
  = String "{" (quote "server" ++ String ":" (quote (recent_server r)
      ++ String "," (quote "slug" ++ String ":" (quote (recent_slug r) ++ String "}" rest)))).
Proof.
  unfold RecentArchive_json; cbn [JSON_stringify map String.concat fst snd append].
  repeat (rewrite !append_assoc; cbn [append]). reflexivity.
Qed.

(** One member whose value is a string. *)
Lemma parse_members_string (fuel : nat) (k v rest : string) (acc : list (string * JSON)) :
  parse_members (2 + fuel) (quote k ++ String ":" (quote v ++ rest)) acc
  = if starts_with "," rest
    then parse_members (S fuel) (after_char rest) (obj_set k (JString v) acc)
    else if starts_with "}" rest
         then Some (JObject (obj_set k (JString v) acc), after_char rest)
         else None.
Proof.
  rewrite quote_append.
  cbn [Nat.add parse_members]; step_chars.
  rewrite parse_chars_escape; step_chars.
  rewrite parse_value_string; reflexivity.
Qed.

Lemma parse_value_object (fuel : nat) (k rest : string) :
  parse_value (S fuel) (String "{" (quote k ++ rest)) = parse_members fuel (quote k ++ rest) [].
Proof. rewrite quote_append; cbn [parse_value]; step_chars; reflexivity. Qed.

(** The text of a record parses to the record; four levels of calls suffice. *)
Lemma parse_value_record (fuel : nat) (r : RecentArchive) (rest : string) :
  parse_value (4 + fuel) (JSON_stringify (RecentArchive_json r) ++ rest)
  = Some (RecentArchive_json r, rest).
Proof.
  rewrite record_text_eq.
  change (4 + fuel) with (S (3 + fuel)); rewrite parse_value_object.
  rewrite (parse_members_string (S fuel)); step_chars.
  rewrite (parse_members_string fuel); step_chars.
  reflexivity.
Qed.

Lemma parse_elements_record (fuel : nat) (r : RecentArchive) (rest : string) (acc : list JSON) :
  parse_elements (5 + fuel) (JSON_stringify (RecentArchive_json r) ++ rest) acc
  = if starts_with "," rest
    then parse_elements (4 + fuel) (after_char rest) (acc ++ [RecentArchive_json r])
    else if starts_with "]" rest
         then Some (JArray (acc ++ [RecentArchive_json r]), after_char rest)
         else None.
Proof.
  change (5 + fuel) with (S (4 + fuel)); cbn [parse_elements].
  rewrite parse_value_record; reflexivity.
Qed.

(** The elements of a non-empty array of records, up to the closing bracket. *)
Lemma parse_elements_records (l : list RecentArchive) :
  forall (r : RecentArchive) (fuel : nat) (rest : string) (acc : list JSON),
  parse_elements (List.length l + 5 + fuel) (elements_text (r :: l) ++ String "]" rest) acc
  = Some (JArray (acc ++ map RecentArchive_json (r :: l)), rest).
Proof.
  unfold elements_text.
  induction l as [| r' l IH]; intros r fuel rest acc.
  - cbn [List.length Nat.add map String.concat].
    rewrite (parse_elements_record fuel); step_chars; reflexivity.
  - change (String.concat "," (map JSON_stringify (map RecentArchive_json (r :: r' :: l))))
      with (JSON_stringify (RecentArchive_json r) ++ String ","
              (String.concat "," (map JSON_stringify (map RecentArchive_json (r' :: l))))).
    rewrite append_assoc.
    replace (List.length (r' :: l) + 5 + fuel) with (5 + (List.length l + 1 + fuel))
      by (cbn [List.length]; lia).
    rewrite parse_elements_record; cbn [append]; step_chars.
    replace (4 + (List.length l + 1 + fuel)) with (List.length l + 5 + fuel) by lia.
    rewrite IH, <- app_assoc; reflexivity.
Qed.

Lemma elements_text_cons (r r' : RecentArchive) (l : list RecentArchive) :
  elements_text (r :: r' :: l)
  = JSON_stringify (RecentArchive_json r) ++ String "," (elements_text (r' :: l)).
Proof. reflexivity. Qed.

Lemma elements_text_head (r : RecentArchive) (l : list RecentArchive) (rest : string) :
  exists tail,
    elements_text (r :: l) ++ rest = JSON_stringify (RecentArchive_json r) ++ tail.
Proof.
  destruct l as [| r' l].
  - exists rest; reflexivity.
  - rewrite elements_text_cons, append_assoc; eexists; reflexivity.
Qed.

Lemma length_record_text (r : RecentArchive) :
  3 <= String.length (JSON_stringify (RecentArchive_json r)).
Proof.
  rewrite <- (append_nil_r (JSON_stringify _)), record_text_eq.
  cbn [String.length]; repeat (rewrite length_append; cbn [String.length]); lia.
Qed.

(** The text is long enough for the calls the elements need. *)
Lemma length_elements_text (l : list RecentArchive) :
  forall r, List.length l + 3 <= String.length (elements_text (r :: l)).
Proof.
  induction l as [| r' l IH]; intros r.
  - apply length_record_text.
  - rewrite elements_text_cons, length_append; cbn [String.length List.length].
    specialize (IH r'); lia.
Qed.

Lemma parse_value_array (fuel : nat) (r : RecentArchive) (rest : string) :
  parse_value (S fuel) (String "[" (JSON_stringify (RecentArchive_json r) ++ rest))
  = parse_elements fuel (JSON_stringify (RecentArchive_json r) ++ rest) [].
Proof. rewrite record_text_eq; cbn [parse_value]; step_chars; reflexivity. Qed.

(** Parsing the cookie text of a list of records gives the array of the records. *)
Lemma JSON_parse_encodeRecentArchives (l : list RecentArchive) :
  JSON_parse (encodeRecentArchives l) = Ok (JArray (map RecentArchive_json l)).
Proof.
  destruct l as [| r l]; [reflexivity |].
  unfold JSON_parse, encodeRecentArchives.
  change (JSON_stringify (JArray (map RecentArchive_json (r :: l))))
    with (String "[" (elements_text (r :: l) ++ "]")).
  pose proof (length_elements_text l r) as Hlen.
  cbn [String.length]; rewrite length_append; cbn [String.length].
  replace (S (String.length (elements_text (r :: l)) + 1))
    with (List.length l + 5 + (String.length (elements_text (r :: l)) - List.length l - 3))
    by lia.
  destruct (elements_text_head r l "]") as [tail Htail].
  rewrite Htail, parse_value_array, <- Htail.
  rewrite parse_elements_records; reflexivity.
Qed.

Lemma RecentArchive_json_injective (l l' : list RecentArchive) :
  map RecentArchive_json l' = map RecentArchive_json l -> l' = l.
Proof.
  revert l'; induction l as [| [s g] l IH]; intros [| [s' g'] l'] H;
    try reflexivity; try discriminate H.
  injection H as -> -> H; rewrite (IH _ H); reflexivity.
Qed.

(** C8. With no archive state, [load] gives the empty list when the
    [recentArchives] cookie is absent, and when the cookie holds the JSON
    text of a list of records it gives the array of those records, which
    determines the list: the records come back equal and in order. *)
Theorem load_recentArchives_roundtrip (S : Type) (others : string -> option string)
    (l : list RecentArchive) :
  load (@None S) (cookie_jar None others) = Ok {| recentArchives := JArray [] |}
  /\ load (@None S) (cookie_jar (Some (encodeRecentArchives l)) others)
     = Ok {| recentArchives := JArray (map RecentArchive_json l) |}
  /\ (forall l', map RecentArchive_json l' = map RecentArchive_json l -> l' = l).
Proof.
  split; [reflexivity | split; [| apply RecentArchive_json_injective]].
  unfold load, cookie_jar; cbn [String.eqb Ascii.eqb Bool.eqb].
  rewrite JSON_parse_encodeRecentArchives; reflexivity.
Qed.

(** * Further properties *)

(** ** The session store, from any state *)

(** X1. From any store that is well formed, every sequence of
    [setCurrentArchive] calls leaves a well-formed store: never more than
    30 recents, and the opened archive as the latest of them. *)
Theorem setCurrentArchive_all_store_wf (calls : list Archive) (c : Client) :
  store_wf (yarkStore c) ->
  store_wf (yarkStore (setCurrentArchive_all calls c)).
Proof.
  revert c; induction calls as [| archive calls IH]; intros c Hwf; [exact Hwf |].
  apply IH; destruct Hwf as [Hlen _]; split.
  - rewrite recents_setCurrentArchive, length_app; cbn [List.length].
    unfold RECENTS_MAX in *.
    destruct (Nat.leb_spec 30 (List.length (recents (yarkStore c)))) as [H | H]; [| lia].
    destruct (recents (yarkStore c)); cbn [List.length tl] in *; lia.
  - rewrite openedArchive_setCurrentArchive, recents_setCurrentArchive.
    eexists; reflexivity.
Qed.

Lemma setCurrentArchive_all_store_wf_witness :
  store_wf (yarkStore (initialClient "/start"))
  /\ store_wf (yarkStore (setCurrentArchive_all (numbered_archives 31) (initialClient "/start"))).
Proof.
  assert (H : store_wf (yarkStore (initialClient "/start"))).
  { split; [cbn; unfold RECENTS_MAX; lia | reflexivity]. }
  split; [exact H |].
  exact (setCurrentArchive_all_store_wf (numbered_archives 31) (initialClient "/start") H).
Defined.

(** X2. One call adds one entry below 30 recents and keeps the number of
    entries from 30 on: a store that holds more than 30 recents is not
    trimmed back, it loses its first entry for the one it gains. *)
Theorem setCurrentArchive_length (archive : Archive) (c : Client) :
  let before := recents (yarkStore c) in
  let after := recents (yarkStore (setCurrentArchive archive c)) in
  List.length after = (if (List.length before <? 30)%nat
                       then S (List.length before)
                       else List.length before)
  /\ after = ((if (List.length before <? 30)%nat then before else tl before) ++ [archive])%list
  /\ last after archive = archive.
Proof.
  cbv zeta; rewrite recents_setCurrentArchive; unfold RECENTS_MAX.
  rewrite last_last, length_app; cbn [List.length].
  destruct (Nat.leb_spec 30 (List.length (recents (yarkStore c)))) as [H | H];
    destruct (Nat.ltb_spec (List.length (recents (yarkStore c))) 30) as [H' | H']; try lia.
  - repeat split; destruct (recents (yarkStore c)); cbn [List.length tl] in *; lia.
  - repeat split; lia.
Qed.

(** X3. Right after [setCurrentArchive archive], from any client, the
    route is the video list, [getOpenedArchiveAlways] returns the archive
    and the two link builders answer with links under the archive's link:
    opening another archive redirects every link to it. *)
Theorem setCurrentArchive_then_links (archive : Archive) (c : Client)
    (thumbnail_id videoId : string) :
  let st := yarkStore (setCurrentArchive archive c) in
  route (setCurrentArchive archive c) = "/archive/videos"
  /\ getOpenedArchiveAlways st = Ok archive
  /\ getVideoThumbnailApiLink thumbnail_id st
     = Ok (server archive ++ "/archive/" ++ slug archive ++ "/thumbnail/" ++ thumbnail_id)
  /\ getVideoFileApiLink videoId st
     = Ok (server archive ++ "/archive/" ++ slug archive ++ "/video/" ++ videoId ++ "/file").
Proof.
  cbv zeta.
  unfold getVideoThumbnailApiLink, getVideoFileApiLink, getOpenedArchiveApiLink,
    getOpenedArchiveAlways, rbind, getArchiveApiLink.
  rewrite openedArchive_setCurrentArchive.
  rewrite !append_assoc; repeat split.
Qed.

(** ** Links of the opened archive *)

(** X4. With an archive opened, the link builders tell their arguments
    apart: two thumbnails share a link only when they share their id, two
    videos share a file link only when they share their id, and no
    thumbnail link is a file link. *)
Theorem opened_links_injective (st : YarkStore) (archive : Archive) :
  openedArchive st = Some archive ->
  (forall t1 t2, getVideoThumbnailApiLink t1 st = getVideoThumbnailApiLink t2 st -> t1 = t2)
  /\ (forall v1 v2, getVideoFileApiLink v1 st = getVideoFileApiLink v2 st -> v1 = v2)
  /\ (forall t v, getVideoThumbnailApiLink t st <> getVideoFileApiLink v st).
Proof.
  intros Hopen.
  unfold getVideoThumbnailApiLink, getVideoFileApiLink.
  rewrite (getOpenedArchiveApiLink_opened _ _ Hopen); cbn [rbind].
  split; [| split].
  - intros t1 t2 H; injection H as H.
    apply append_cancel_l in H; cbn [append] in H.
    injection H as H; exact H.
  - intros v1 v2 H; injection H as H.
    apply append_cancel_l in H; cbn [append] in H.
    injection H as H; exact (append_cancel_r _ _ _ H).
  - intros t v H; injection H as H.
    apply append_cancel_l in H; discriminate H.
Qed.

Lemma opened_links_injective_witness :
  openedArchive (store (sample_world (Some sample_archive) 200 "")) = Some sample_archive
  /\ getVideoThumbnailApiLink "t1" (store (sample_world (Some sample_archive) 200 ""))
     <> getVideoFileApiLink "t1" (store (sample_world (Some sample_archive) 200 "")).
Proof.
  split; [reflexivity |].
  exact (proj2 (proj2 (opened_links_injective
                         (store (sample_world (Some sample_archive) 200 ""))
                         sample_archive eq_refl)) "t1" "t1").
Defined.



(** ** What the connector sends, and how it fails *)

Ltac unfold_connector := unfold importNewRemoteArchive; unfold_async.

(** Case analysis on the tests a computation of the connector makes, first
    test first. *)
Ltac settle :=
  repeat (cbn [fst snd app];
          match goal with
          | |- context [match openedArchive ?s with _ => _ end] =>
              destruct (openedArchive s) eqn:?
          | |- context [match URL_new ?s with _ => _ end] => destruct (URL_new s) eqn:?
          | |- context [match remote ?w ?r with _ => _ end] => destruct (remote w r) eqn:?
          | |- context [match JSON_parse ?s with _ => _ end] => destruct (JSON_parse s) eqn:?
          | |- context [match get_property ?v ?n with _ => _ end] =>
              destruct (get_property v n) eqn:?
          end);
  cbn [fst snd app].

Ltac split_cases :=
  repeat match goal with
         | |- context [match ?x with _ => _ end] => destruct x eqn:?
         end.

Lemma URL_new_throws (input : string) (e : exn) : URL_new input = Throw e -> e = TypeError.
Proof.
  unfold URL_new; split_cases; intros H; solve [discriminate H | injection H as <-; reflexivity].
Qed.

Lemma JSON_parse_throws (text : string) (e : exn) :
  JSON_parse text = Throw e -> e = SyntaxError.
Proof.
  unfold JSON_parse; split_cases; intros H;
    solve [discriminate H | injection H as <-; reflexivity].
Qed.

Lemma get_property_throws (value : JSON) (name : string) (e : exn) :
  get_property value name = Throw e -> e = TypeError.
Proof.
  destruct value; cbn; intros H; solve [discriminate H | injection H as <-; reflexivity].
Qed.

(** X6. In every world each function of the connector issues at most one
    request, of its own method: POST to create and to import, GET for the
    lists and the details, DELETE for a note.  Nothing is retried and
    nothing is sent twice. *)
Theorem connector_single_request (w : World)
    (create : CreateArchiveRemotePayload) (import : ImportArchiveRemotePayload)
    (kind : ArchiveVideoKind) (id : string) (note : Note) :
  single_request POST (snd (createNewRemoteArchive create w))
  /\ single_request POST (snd (importNewRemoteArchive import w))
  /\ single_request GET (snd (fetchVideosBrief kind w))
  /\ single_request GET (snd (fetchVideoDetails id w))
  /\ single_request DELETE (snd (deleteNote id note w)).
Proof.
  unfold single_request; unfold_connector.
  repeat split; settle; cbn [List.length]; solve [lia | repeat constructor].
Qed.

(** X7. Only the creation and the import carry the credential: their
    request has the JSON content type, the secret as a bearer token in the
    [Authentication] header and a body, while the requests for the lists,
    for the details and for the deletion of a note have no header and no
    body, so these three settle alike whatever the secret is. *)
Theorem connector_credentials (w : World)
    (create : CreateArchiveRemotePayload) (import : ImportArchiveRemotePayload)
    (kind : ArchiveVideoKind) (id : string) (note : Note) :
  let authenticated r :=
    headers r = [("Content-Type", "application/json");
                 ("Authentication", "Bearer " ++ adminSecret w)]
    /\ body r <> None in
  let bare r := headers r = [] /\ body r = None in
  Forall authenticated (snd (createNewRemoteArchive create w))
  /\ Forall authenticated (snd (importNewRemoteArchive import w))
  /\ Forall bare (snd (fetchVideosBrief kind w))
  /\ Forall bare (snd (fetchVideoDetails id w))
  /\ Forall bare (snd (deleteNote id note w))
  /\ (forall secret,
        let w' := {| store := store w; adminSecret := secret; remote := remote w |} in
        fetchVideosBrief kind w' = fetchVideosBrief kind w
        /\ fetchVideoDetails id w' = fetchVideoDetails id w
        /\ deleteNote id note w' = deleteNote id note w).
Proof.
  cbv zeta; unfold_connector.
  repeat split; settle; repeat constructor; discriminate.
Qed.

(** X8. The error of the archive that is not open tells exactly that state:
    the lists, the details and the deletion of a note settle with an
    [Error] if and only if no archive is opened, and then with the message
    of [getOpenedArchiveAlways]; the creation and the import, which read no
    store, never settle with an [Error]. *)
Theorem connector_not_open_iff (w : World)
    (create : CreateArchiveRemotePayload) (import : ImportArchiveRemotePayload)
    (kind : ArchiveVideoKind) (id : string) (note : Note) :
  let closed {A} (r : result A * list Request) :=
    (exists message, fst r = Throw (Error message)) <-> openedArchive (store w) = None in
  let message_of {A} (r : result A * list Request) :=
    forall message, fst r = Throw (Error message) -> message = not_open_message in
  closed (fetchVideosBrief kind w) /\ message_of (fetchVideosBrief kind w)
  /\ closed (fetchVideoDetails id w) /\ message_of (fetchVideoDetails id w)
  /\ closed (deleteNote id note w) /\ message_of (deleteNote id note w)
  /\ (forall message, fst (createNewRemoteArchive create w) <> Throw (Error message))
  /\ (forall message, fst (importNewRemoteArchive import w) <> Throw (Error message)).
Proof.
  cbv zeta; unfold_connector.
  repeat split; settle;
    repeat match goal with
           | H : URL_new _ = Throw _ |- _ => apply URL_new_throws in H; subst
           | H : JSON_parse _ = Throw _ |- _ => apply JSON_parse_throws in H; subst
           | H : get_property _ _ = Throw _ |- _ => apply get_property_throws in H; subst
           end;
    try solve [ intros [m H]; discriminate H
              | intros H; discriminate H
              | intros m H; discriminate H
              | intros m H; injection H as <-; reflexivity
              | intros _; eexists; reflexivity
              | intros [m H]; apply JSON_parse_throws in H; discriminate H
              | intros m H; apply JSON_parse_throws in H; discriminate H
              | reflexivity ].
Qed.

(** A text without a colon starts with neither scheme. *)
Lemma URL_new_no_colon (input : string) :
  string_forall (fun c => negb (c =? ":")%char) input = true ->
  URL_new input = Throw TypeError.
Proof.
  intros H; unfold URL_new.
  assert (Hprefix : forall p r, string_forall (fun c => negb (c =? ":")%char) p = false ->
                                strip_prefix p input = Some r -> False).
  { intros p r Hp Hstrip; apply strip_prefix_app in Hstrip; subst input.
    rewrite string_forall_app, Hp in H; discriminate H. }
  destruct (strip_prefix "https://" input) as [r |] eqn:H1;
    [destruct (Hprefix "https://" r eq_refl H1) |].
  destruct (strip_prefix "http://" input) as [r |] eqn:H2;
    [destruct (Hprefix "http://" r eq_refl H2) |].
  reflexivity.
Qed.

(** X9. A server written without a colon has no scheme: [new URL] refuses
    it, and the creation and the import reject with its error before
    anything is sent. *)
Theorem remote_archive_invalid_server (server slug path target : string) (w : World) :
  string_forall (fun c => negb (c =? ":")%char) server = true ->
  createNewRemoteArchive
    {| create_server := server; create_slug := slug;
       create_path := path; create_target := target |} w
  = (Throw TypeError, [])
  /\ importNewRemoteArchive
       {| import_server := server; import_slug := slug; import_path := path |} w
     = (Throw TypeError, []).
Proof.
  intros H; apply URL_new_no_colon in H.
  unfold_connector; cbn [create_server import_server]; rewrite H; split; reflexivity.
Qed.

Lemma remote_archive_invalid_server_witness :
  string_forall (fun c => negb (c =? ":")%char) "h/archive" = true
  /\ createNewRemoteArchive
       {| create_server := "h/archive"; create_slug := "abc";
          create_path := "/srv/abc"; create_target := "https://tube/c/x" |}
       (sample_world None 200 "{}")
     = (Throw TypeError, []).
Proof.
  split; [reflexivity |].
  exact (proj1 (remote_archive_invalid_server "h/archive" "abc" "/srv/abc" "https://tube/c/x"
                  (sample_world None 200 "{}") eq_refl)).
Defined.

(** X10. For a payload whose server parses as an address,
    [importNewRemoteArchive] issues one POST to the server's address with
    the path [/archive] and [intent=existing] as its intent parameter, with
    the same two headers as the creation and the JSON text of the slug and
    the path as body; when the response parses as JSON, it resolves to the
    record of the payload's server and of the [slug] property of the
    response. *)
Theorem importNewRemoteArchive_request (p : ImportArchiveRemotePayload) (w : World) (u : URL) :
  URL_new (import_server p) = Ok u ->
  let target := searchParams_set (set_pathname u "/archive") "intent" "existing" in
  let request :=
    {| method := POST;
       url := href target;
       headers := [("Content-Type", "application/json");
                   ("Authentication", "Bearer " ++ adminSecret w)];
       body := Some (JSON_stringify
                       (JObject [("slug", JString (import_slug p));
                                 ("path", JString (import_path p))])) |} in
  snd (importNewRemoteArchive p w) = [request]
  /\ origin target = origin u
  /\ pathname target = "/archive"
  /\ (exists params,
        search target = String "?" (serialize_query params)
        /\ In ("intent", "existing") params
        /\ forall v, In ("intent", v) params -> v = "existing")
  /\ (search u = "" -> hash u = "" -> url request = origin u ++ "/archive?intent=existing")
  /\ (forall response resp_json slug,
        remote w request = Some response ->
        JSON_parse (text response) = Ok resp_json ->
        get_property resp_json "slug" = Ok slug ->
        fst (importNewRemoteArchive p w)
        = Ok {| unchecked_server := import_server p; unchecked_slug := slug |}).
Proof.
  intros Hurl target request.
  split; [| split; [reflexivity | split; [reflexivity | split; [| split]]]].
  - unfold_connector; rewrite Hurl; fold target; fold request.
    destruct (remote w request) as [response |]; [| reflexivity].
    destruct (JSON_parse (text response)) as [resp_json |]; [| reflexivity].
    destruct (get_property resp_json "slug"); reflexivity.
  - eexists; split; [reflexivity |].
    apply params_set_In.
  - intros Hs Hh; cbn [url request]; unfold href, target, searchParams_set, set_pathname.
    cbn [origin pathname search hash]; rewrite Hs, Hh; reflexivity.
  - intros response resp_json slug Hresp Hjson Hslug.
    unfold_connector; rewrite Hurl; fold target; fold request.
    rewrite Hresp, Hjson, Hslug; reflexivity.
Qed.

Lemma importNewRemoteArchive_request_witness :
  URL_new (import_server sample_import)
  = Ok {| origin := "https://h"; pathname := "/"; search := ""; hash := "" |}
  /\ snd (importNewRemoteArchive sample_import
            (sample_world None 200 (JSON_stringify (JObject [("slug", JString "abc")]))))
     = [{| method := POST;
           url := "https://h/archive?intent=existing";
           headers := [("Content-Type", "application/json");
                       ("Authentication", "Bearer secret")];
           body := Some (JSON_stringify
                           (JObject [("slug", JString "abc");
                                     ("path", JString "/srv/abc")])) |}]
  /\ fst (importNewRemoteArchive sample_import
            (sample_world None 200 (JSON_stringify (JObject [("slug", JString "abc")]))))
     = Ok {| unchecked_server := "https://h"; unchecked_slug := Some (JString "abc") |}.
Proof.
  split; [reflexivity |].
  pose proof (importNewRemoteArchive_request sample_import
                (sample_world None 200 (JSON_stringify (JObject [("slug", JString "abc")])))
                _ eq_refl) as (Hreq & _ & _ & _ & _ & Hres).
  split; [exact Hreq |].
  exact (Hres _ (JObject [("slug", JString "abc")]) (Some (JString "abc"))
           eq_refl eq_refl eq_refl).
Defined.

(** X11. The status of a response has no part in any settlement: in two
    worlds of the same store and secret whose servers answer the same
    requests with the same text, whatever the statuses, each function of the
    connector issues the same requests and settles the same way.  A 500 with
    a JSON body resolves as a 200 does. *)
Theorem connector_ignores_status (w1 w2 : World)
    (create : CreateArchiveRemotePayload) (import : ImportArchiveRemotePayload)
    (kind : ArchiveVideoKind) (id : string) (note : Note) :
  store w1 = store w2 ->
  adminSecret w1 = adminSecret w2 ->
  (forall request, option_map text (remote w1 request) = option_map text (remote w2 request)) ->
  createNewRemoteArchive create w1 = createNewRemoteArchive create w2
  /\ importNewRemoteArchive import w1 = importNewRemoteArchive import w2
  /\ fetchVideosBrief kind w1 = fetchVideosBrief kind w2
  /\ fetchVideoDetails id w1 = fetchVideoDetails id w2
  /\ deleteNote id note w1 = deleteNote id note w2.
Proof.
  intros Hstore Hsecret Htext.
  unfold_connector; rewrite Hstore, Hsecret.
  repeat split;
    (destruct (openedArchive (store w2)); cbn [fst snd]; [| try reflexivity]);
    repeat match goal with
           | |- context [match URL_new ?s with _ => _ end] =>
               destruct (URL_new s); cbn [fst snd]; [| reflexivity]
           end;
    match goal with
    | |- context [remote w1 ?r] =>
        specialize (Htext r); destruct (remote w1 r), (remote w2 r);
          cbn [option_map] in Htext; try discriminate Htext;
          [injection Htext as Htext; rewrite ?Htext |]; reflexivity
    end.
Qed.

(** ** [JSON.parse] after [JSON.stringify] *)

(** Induction on a value, with its items and members. *)
Lemma JSON_nested_ind (P : JSON -> Prop) :
  P JNull -> (forall b, P (JBool b)) -> (forall n, P (JNumber n)) -> (forall s, P (JString s)) ->
  (forall items, Forall P items -> P (JArray items)) ->
  (forall members, Forall (fun kv => P (snd kv)) members -> P (JObject members)) ->
  forall j, P j.
Proof.
  intros Hnull Hbool Hnum Hstr Harr Hobj.
  fix IH 1; intros [| b | n | s | items | members];
    [exact Hnull | apply Hbool | apply Hnum | apply Hstr | apply Harr | apply Hobj].
  - induction items as [| v items IHitems]; constructor; [apply IH | exact IHitems].
  - induction members as [| [k v] members IHmembers]; constructor;
      [apply IH | exact IHmembers].
Qed.

Lemma follows_cases (rest : string) :
  follows rest = true ->
  rest = "" \/ exists c t, rest = String c t /\ (c = "," \/ c = "]" \/ c = "}")%char.
Proof.
  destruct rest as [| c t]; [left; reflexivity |]; cbn; intros H; right; exists c, t.
  split; [reflexivity |].
  apply orb_true_iff in H as [H | H]; [apply orb_true_iff in H as [H | H] |];
    apply Ascii.eqb_eq in H; auto.
Qed.

(** Case analysis on what follows. *)
Ltac follows_cases H :=
  apply follows_cases in H as [-> | (? & ? & -> & [-> | [-> | ->]])].

Lemma span_digits_app (s rest : string) :
  follows rest = true ->
  span_digits (s ++ rest) = (fst (span_digits s), snd (span_digits s) ++ rest).
Proof.
  intros H; induction s as [| c s IH]; cbn [append span_digits].
  - follows_cases H; reflexivity.
  - destruct (is_digit c); [| reflexivity].
    rewrite IH; destruct (span_digits s); reflexivity.
Qed.

Lemma parse_digits_app (s rest d r : string) :
  follows rest = true ->
  parse_digits s = Some (d, r) -> parse_digits (s ++ rest) = Some (d, r ++ rest).
Proof.
  intros H; unfold parse_digits; rewrite (span_digits_app _ _ H).
  destruct (span_digits s) as [[| c d'] r']; [discriminate |]; cbn [fst snd].
  intros E; injection E as <- <-; reflexivity.
Qed.

Lemma scan_int_app (s rest i r : string) :
  follows rest = true ->
  scan_int s = Some (i, r) -> scan_int (s ++ rest) = Some (i, r ++ rest).
Proof.
  intros H; unfold scan_int; destruct s as [| c s]; [discriminate |]; cbn [append].
  destruct (c =? "0")%char; [intros E; injection E as <- <-; reflexivity |].
  exact (parse_digits_app (String c s) rest i r H).
Qed.

Lemma scan_frac_app (s rest fr r : string) :
  follows rest = true ->
  scan_frac s = Some (fr, r) -> scan_frac (s ++ rest) = Some (fr, r ++ rest).
Proof.
  intros H; unfold scan_frac; destruct s as [| c s]; cbn [append].
  - intros E; injection E as <- <-; follows_cases H; reflexivity.
  - destruct (c =? ".")%char; [| intros E; injection E as <- <-; reflexivity].
    destruct (parse_digits s) as [[d t] |] eqn:Hd; [| discriminate].
    rewrite (parse_digits_app _ _ _ _ H Hd).
    intros E; injection E as <- <-; reflexivity.
Qed.

Lemma scan_exp_app (s rest ex r : string) :
  follows rest = true ->
  scan_exp s = Some (ex, r) -> scan_exp (s ++ rest) = Some (ex, r ++ rest).
Proof.
  intros H; unfold scan_exp; destruct s as [| c s]; cbn [append].
  - intros E; injection E as <- <-; follows_cases H; reflexivity.
  - destruct ((c =? "e") || (c =? "E"))%char; [| intros E; injection E as <- <-; reflexivity].
    destruct s as [| c' s']; cbn [append].
    + discriminate.
    + destruct ((c' =? "+") || (c' =? "-"))%char.
      * destruct (parse_digits s') as [[d t] |] eqn:Hd; [| discriminate].
        rewrite (parse_digits_app _ _ _ _ H Hd).
        intros E; injection E as <- <-; reflexivity.
      * destruct (parse_digits (String c' s')) as [[d t] |] eqn:Hd; [| discriminate].
        change (String c' (s' ++ rest)) with (String c' s' ++ rest).
        rewrite (parse_digits_app (String c' s') _ _ _ H Hd).
        intros E; injection E as <- <-; reflexivity.
Qed.

(** A number literal is read whole when what follows it may follow a value. *)
Lemma parse_number_app (s rest : string) (n : number) (r : string) :
  follows rest = true ->
  parse_number s = Some (n, r) -> parse_number (s ++ rest) = Some (n, r ++ rest).
Proof.
  intros H; unfold parse_number.
  destruct (scan_int (snd (scan_sign s))) as [[i s2] |] eqn:Hi.
  2:{ destruct (scan_sign s); cbn [snd] in Hi; rewrite Hi; discriminate. }
  assert (Hsign : scan_sign (s ++ rest) = (fst (scan_sign s), snd (scan_sign s) ++ rest)).
  { destruct s as [| c s]; [discriminate Hi |].
    cbn [append scan_sign]; destruct (c =? "-")%char; reflexivity. }
  rewrite Hsign; destruct (scan_sign s) as [sign s1]; cbn [fst snd] in *.
  rewrite Hi, (scan_int_app _ _ _ _ H Hi).
  destruct (scan_frac s2) as [[fr s3] |] eqn:Hf; [| discriminate].
  rewrite (scan_frac_app _ _ _ _ H Hf).
  destruct (scan_exp s3) as [[ex s4] |] eqn:He; [| discriminate].
  rewrite (scan_exp_app _ _ _ _ H He).
  intros E; injection E as <- <-; reflexivity.
Qed.

(** A number literal starts with a minus sign or a digit. *)
Lemma parse_number_head (s : string) (n : number) (r : string) :
  parse_number s = Some (n, r) ->
  exists c t, s = String c t /\ (c = "-"%char \/ is_digit c = true).
Proof.
  unfold parse_number; destruct s as [| c t]; [discriminate |].
  intros H; exists c, t; split; [reflexivity |].
  unfold scan_sign in H; destruct (Ascii.eqb_spec c "-") as [-> | Hc]; [left; reflexivity |].
  right; unfold scan_int in H.
  destruct (Ascii.eqb_spec c "0") as [-> | Hz]; [reflexivity |].
  unfold parse_digits in H; cbn [span_digits] in H.
  destruct (is_digit c); [reflexivity | discriminate H].
Qed.

(** Such a character is no white space and starts no other value. *)
Lemma number_head_dispatch (c : ascii) :
  c = "-"%char \/ is_digit c = true ->
  is_ws c = false
  /\ (c =? "{")%char = false /\ (c =? "[")%char = false /\ (c =? dquote)%char = false
  /\ (c =? "]")%char = false
  /\ ("t" =? c)%char = false /\ ("f" =? c)%char = false /\ ("n" =? c)%char = false.
Proof.
  destruct c as [[] [] [] [] [] [] [] []]; cbn; intros [H | H];
    try discriminate H; repeat split.
Qed.

Lemma parse_value_number (f : nat) (n : number) (rest : string) :
  number_literal n = true -> follows rest = true ->
  parse_value (S f) (n ++ rest) = Some (JNumber n, rest).
Proof.
  unfold number_literal; intros Hn Hrest.
  destruct (parse_number n) as [[n' r] |] eqn:Hp; [| discriminate].
  apply andb_true_iff in Hn as [Hn Hr]; apply String.eqb_eq in Hn as ->.
  destruct r; [| discriminate].
  pose proof (parse_number_app _ _ _ _ Hrest Hp) as Happ; cbn [append] in Happ.
  destruct (parse_number_head _ _ _ Hp) as (c & t & -> & Hc).
  destruct (number_head_dispatch c Hc) as (Hws & H1 & H2 & H3 & _ & Ht & Hf & Hnl).
  cbn [parse_value append] in *.
  rewrite !starts_with_cons, H1, H2, H3 by exact Hws.
  cbn [skip_ws]; rewrite Hws.
  unfold parse_literal; cbn [strip_prefix]; rewrite Ht, Hf, Hnl, Happ; reflexivity.
Qed.

(** The text of a value starts with a character that is no white space and
    closes no array. *)
Lemma JSON_stringify_head (v : JSON) :
  JSON_wf v = true ->
  exists c t, JSON_stringify v = String c t /\ is_ws c = false /\ (c =? "]")%char = false.
Proof.
  destruct v as [| [] | n | s | items | members]; cbn [JSON_wf JSON_stringify];
    try (intros _; eexists; eexists; split; [reflexivity | split; reflexivity]).
  unfold number_literal; destruct (parse_number n) as [[n' r] |] eqn:Hp; [| discriminate].
  intros _; destruct (parse_number_head _ _ _ Hp) as (c & t & -> & Hc).
  destruct (number_head_dispatch c Hc) as (Hws & _ & _ & _ & Hclose & _).
  exists c, t; auto.
Qed.

Lemma parse_elements_items (items : list JSON) :
  Forall parses_back items -> forallb JSON_wf items = true -> items <> [] ->
  forall acc rest f,
    String.length (String.concat "," (map JSON_stringify items)) + 1 < f ->
    parse_elements f (String.concat "," (map JSON_stringify items) ++ String "]" rest) acc
    = Some (JArray (acc ++ items), rest).
Proof.
  induction items as [| v items IH]; intros Hback Hwf Hne acc rest f Hf; [contradiction |].
  inversion Hback as [| ? ? Hv Hitems]; subst.
  cbn [forallb] in Hwf; apply andb_true_iff in Hwf as [Hwfv Hwfi].
  destruct f as [| f]; [lia |].
  destruct items as [| v' items].
  - cbn [map String.concat] in *; cbn [parse_elements].
    rewrite (Hv Hwfv) by (reflexivity || lia).
    rewrite !starts_with_cons, after_char_cons by reflexivity; reflexivity.
  - change (String.concat "," (map JSON_stringify (v :: v' :: items)))
      with (JSON_stringify v ++ String "," (String.concat "," (map JSON_stringify (v' :: items))))
      in *.
    rewrite length_append in Hf; cbn [String.length] in Hf.
    rewrite append_assoc; cbn [append parse_elements].
    rewrite (Hv Hwfv) by (reflexivity || lia).
    rewrite !starts_with_cons, after_char_cons by reflexivity; cbn [Ascii.eqb Bool.eqb].
    rewrite IH; [rewrite <- app_assoc; reflexivity | assumption | assumption | discriminate | lia].
Qed.

Lemma nodup_keys_NoDup (keys : list string) : nodup_keys keys = true -> NoDup keys.
Proof.
  induction keys as [| k keys IH]; cbn; [constructor |].
  intros H; apply andb_true_iff in H as [Hk Hr]; constructor; [| exact (IH Hr)].
  intros Hin; apply negb_true_iff in Hk.
  assert (existsb (String.eqb k) keys = true); [| congruence].
  apply existsb_exists; exists k; split; [exact Hin | apply String.eqb_refl].
Qed.

(** A name that the object does not have yet is added last. *)
Lemma obj_set_fresh (k : string) (v : JSON) (m : list (string * JSON)) :
  ~ In k (map fst m) -> obj_set k v m = (m ++ [(k, v)])%list.
Proof.
  induction m as [| [k' v'] m IH]; cbn; [reflexivity |].
  intros H; destruct (String.eqb_spec k k') as [-> | _]; [tauto |].
  rewrite IH; tauto.
Qed.

Lemma parse_members_items (members : list (string * JSON)) :
  Forall (fun kv => parses_back (snd kv)) members ->
  forallb (fun kv => JSON_wf (snd kv)) members = true -> members <> [] ->
  forall acc rest f,
    NoDup (map fst acc ++ map fst members) ->
    String.length (String.concat "," (map member_text members)) + 1 < f ->
    parse_members f (String.concat "," (map member_text members) ++ String "}" rest) acc
    = Some (JObject (acc ++ members), rest).
Proof.
  induction members as [| [k v] members IH];
    intros Hback Hwf Hne acc rest f Hdup Hf; [contradiction |].
  inversion Hback as [| ? ? Hv Hmembers]; subst; cbn [snd] in Hv.
  cbn [forallb snd] in Hwf; apply andb_true_iff in Hwf as [Hwfv Hwfm].
  assert (Hfresh : obj_set k v acc = (acc ++ [(k, v)])%list).
  { apply obj_set_fresh; cbn [map fst] in Hdup.
    apply NoDup_remove_2 in Hdup; rewrite in_app_iff in Hdup; tauto. }
  assert (Hstep : forall tail f',
            follows tail = true ->
            String.length (member_text (k, v)) < S f' ->
            parse_members (S f') (member_text (k, v) ++ tail) acc
            = if starts_with "," tail
              then parse_members f' (after_char tail) (acc ++ [(k, v)])
              else if starts_with "}" tail
                   then Some (JObject (acc ++ [(k, v)]), after_char tail)
                   else None).
  { intros tail f' Htail Hlen; unfold member_text in *; cbn [fst snd] in *.
    rewrite length_append in Hlen; cbn [append String.length] in Hlen.
    rewrite !append_assoc; cbn [append]; rewrite quote_append; cbn [parse_members].
    rewrite !starts_with_cons, after_char_cons by reflexivity.
    cbn [dquote Ascii.eqb Bool.eqb andb]; fold dquote.
    rewrite parse_chars_escape, starts_with_cons, after_char_cons by reflexivity.
    cbn [Ascii.eqb Bool.eqb andb].
    rewrite (Hv Hwfv) by (assumption || lia); rewrite Hfresh; reflexivity. }
  destruct f as [| f]; [lia |].
  destruct members as [| kv' members].
  - cbn [map String.concat] in *.
    rewrite Hstep by (reflexivity || lia).
    rewrite !starts_with_cons, after_char_cons by reflexivity; reflexivity.
  - change (String.concat "," (map member_text ((k, v) :: kv' :: members)))
      with (member_text (k, v) ++ String "," (String.concat "," (map member_text (kv' :: members))))
      in *.
    rewrite length_append in Hf; cbn [String.length] in Hf.
    rewrite append_assoc; cbn [append].
    rewrite Hstep by (reflexivity || lia).
    rewrite !starts_with_cons, after_char_cons by reflexivity; cbn [Ascii.eqb Bool.eqb].
    rewrite IH; [rewrite <- app_assoc; reflexivity | assumption | assumption | discriminate | | lia].
    rewrite map_app, <- app_assoc; exact Hdup.
Qed.

(** Every value of the platform is read back from its text. *)
Lemma parse_value_stringify (v : JSON) : parses_back v.
Proof.
  induction v as [| b | n | s | items IH | members IH] using JSON_nested_ind;
    intros Hwf rest f Hrest Hf; (destruct f as [| f]; [lia |]).
  - reflexivity.
  - destruct b; reflexivity.
  - exact (parse_value_number f n rest Hwf Hrest).
  - exact (parse_value_string f s rest).
  - cbn [JSON_wf] in Hwf; cbn [JSON_stringify] in *.
    rewrite !append_assoc; cbn [append String.length] in *.
    destruct items as [| v items]; [reflexivity |].
    rewrite length_append in Hf; cbn [String.length] in Hf.
    assert (Hhead : exists c t,
               String.concat "," (map JSON_stringify (v :: items)) = String c t
               /\ is_ws c = false /\ (c =? "]")%char = false).
    { cbn [forallb] in Hwf; apply andb_true_iff in Hwf as [Hv _].
      destruct (JSON_stringify_head v Hv) as (c & t & Ht & Hc).
      cbn [map]; destruct items; cbn [String.concat map]; rewrite Ht; eexists; eexists;
        (split; [reflexivity | exact Hc]). }
    destruct Hhead as (c & t & Ht & Hws & Hc).
    cbn [parse_value]; rewrite !starts_with_cons, after_char_cons by reflexivity.
    cbn [Ascii.eqb Bool.eqb andb]; rewrite Ht; cbn [append].
    rewrite starts_with_cons, Hc by exact Hws.
    change (String c (t ++ String "]" rest)) with (String c t ++ String "]" rest).
    rewrite <- Ht; apply (parse_elements_items _ IH Hwf); [discriminate | lia].
  - cbn [JSON_wf] in Hwf; apply andb_true_iff in Hwf as [Hwf Hdup].
    cbn [JSON_stringify] in *.
    change (map (fun kv => quote (fst kv) ++ ":" ++ JSON_stringify (snd kv)) members)
      with (map member_text members) in *.
    rewrite !append_assoc; cbn [append String.length] in *.
    destruct members as [| [k v] members]; [reflexivity |].
    rewrite length_append in Hf; cbn [String.length] in Hf.
    assert (Hhead : exists t,
               String.concat "," (map member_text ((k, v) :: members)) = String dquote t).
    { cbn [map]; destruct members; cbn [String.concat map]; unfold member_text at 1;
        cbn [fst]; unfold quote; cbn [append]; eexists; reflexivity. }
    destruct Hhead as [t Ht].
    cbn [parse_value]; rewrite !starts_with_cons, after_char_cons by reflexivity.
    cbn [Ascii.eqb Bool.eqb andb]; rewrite Ht; cbn [append].
    rewrite starts_with_cons by reflexivity.
    cbn [dquote Ascii.eqb Bool.eqb andb]; fold dquote.
    change (String dquote (t ++ String "}" rest)) with (String dquote t ++ String "}" rest).
    rewrite <- Ht; apply (parse_members_items _ IH Hwf);
      [discriminate | apply nodup_keys_NoDup; exact Hdup | lia].
Qed.

(** [JSON.parse] undoes [JSON.stringify] on every value of the platform. *)
Lemma JSON_parse_stringify (v : JSON) :
  JSON_wf v = true -> JSON_parse (JSON_stringify v) = Ok v.
Proof.
  intros Hwf; unfold JSON_parse.
  rewrite <- (append_nil_r (JSON_stringify v)) at 2.
  rewrite (parse_value_stringify v Hwf) by (reflexivity || lia); reflexivity.
Qed.

(** ** Values through the connector *)

Example number_literal_samples :
  map number_literal ["0"; "12"; "-2.5e3"; "1E+9"; ""; "01"; "1."; ".5"; "+1"; "1e"]
  = [true; true; true; true; false; false; false; false; false; false].
Proof. reflexivity. Qed.

(** X12. The body of the creation and of the import is a JSON text that
    reads back as the object of the payload's slug, path and target (slug
    and path for the import), whatever characters these strings hold:
    quotes, backslashes and control characters are escaped. *)
Theorem remote_archive_body_roundtrip (w : World)
    (create : CreateArchiveRemotePayload) (import : ImportArchiveRemotePayload) :
  Forall (fun r => exists text,
              body r = Some text
              /\ JSON_parse text
                 = Ok (JObject [("slug", JString (create_slug create));
                                ("path", JString (create_path create));
                                ("target", JString (create_target create))]))
         (snd (createNewRemoteArchive create w))
  /\ Forall (fun r => exists text,
                 body r = Some text
                 /\ JSON_parse text
                    = Ok (JObject [("slug", JString (import_slug import));
                                   ("path", JString (import_path import))]))
            (snd (importNewRemoteArchive import w)).
Proof.
  unfold_connector; split; settle; repeat constructor;
    eexists; (split; [reflexivity | apply JSON_parse_stringify; reflexivity]).
Qed.

(** X13. The creation and the import trust the response: when the server
    answers with the text of a value, whatever the status, they resolve with
    the [slug] member of an object as slug, with an undefined slug when the
    object has no such member or the value is no object, and reject with a
    [TypeError] when the value is [null]. *)
Theorem remote_archive_trusts_response (server slug path target : string) (w : World)
    (u : URL) (v : JSON) :
  URL_new server = Ok u ->
  JSON_wf v = true ->
  (forall request, option_map text (remote w request) = Some (JSON_stringify v)) ->
  let outcome :=
    match v with
    | JNull => Throw TypeError
    | JObject members =>
        Ok {| unchecked_server := server;
              unchecked_slug :=
                option_map snd (find (fun kv => (fst kv =? "slug")%string) members) |}
    | _ => Ok {| unchecked_server := server; unchecked_slug := None |}
    end in
  fst (createNewRemoteArchive
         {| create_server := server; create_slug := slug;
            create_path := path; create_target := target |} w) = outcome
  /\ fst (importNewRemoteArchive
            {| import_server := server; import_slug := slug; import_path := path |} w)
     = outcome.
Proof.
  intros Hurl Hwf Hremote outcome.
  unfold_connector; cbn [create_server import_server]; rewrite Hurl; cbn [fst snd].
  split;
    match goal with
    | |- context [remote w ?r] =>
        specialize (Hremote r); destruct (remote w r) as [response |];
          [| discriminate Hremote]
    end;
    injection Hremote as Htext; cbn [fst snd]; rewrite Htext, (JSON_parse_stringify v Hwf);
    cbn [fst snd]; subst outcome; destruct v; reflexivity.
Qed.

Lemma remote_archive_trusts_response_witness :
  fst (createNewRemoteArchive
         {| create_server := "https://h"; create_slug := "abc";
            create_path := "/srv/abc"; create_target := "https://tube/c/x" |}
         (sample_world None 500 (JSON_stringify (JObject [("error", JString "denied")]))))
  = Ok {| unchecked_server := "https://h"; unchecked_slug := None |}.
Proof.
  exact (proj1 (remote_archive_trusts_response "https://h" "abc" "/srv/abc" "https://tube/c/x"
                  (sample_world None 500 (JSON_stringify (JObject [("error", JString "denied")])))
                  _ (JObject [("error", JString "denied")])
                  eq_refl eq_refl (fun _ => eq_refl))).
Defined.

(** X14. What a server serialises comes back: with an archive opened whose
    link parses as an address and a server that answers with the text of a
    value, [fetchVideosBrief] resolves with that value (an array with its
    elements in order, and any other value just as well: the shape is not
    checked) and [fetchVideoDetails] with the pair of that value and of the
    text. *)
Theorem fetch_served_value (w : World) (archive : Archive) (u : URL) (v : JSON)
    (kind : ArchiveVideoKind) (id : string) :
  openedArchive (store w) = Some archive ->
  URL_new (getArchiveApiLink archive) = Ok u ->
  JSON_wf v = true ->
  (forall request, option_map text (remote w request) = Some (JSON_stringify v)) ->
  fst (fetchVideosBrief kind w) = Ok v
  /\ fst (fetchVideoDetails id w) = Ok (v, JSON_stringify v).
Proof.
  intros Hopen Hurl Hwf Hremote.
  unfold_async; rewrite Hopen, Hurl; cbn [fst snd].
  split;
    match goal with
    | |- context [remote w ?r] =>
        specialize (Hremote r); destruct (remote w r) as [response |];
          [| discriminate Hremote]
    end;
    injection Hremote as Htext; cbn [fst snd]; rewrite Htext, (JSON_parse_stringify v Hwf);
    reflexivity.
Qed.

Lemma fetch_served_value_witness :
  fst (fetchVideosBrief Videos
         (sample_world (Some sample_archive) 200 (JSON_stringify sample_briefs)))
  = Ok sample_briefs.
Proof.
  exact (proj1 (fetch_served_value
                  (sample_world (Some sample_archive) 200 (JSON_stringify sample_briefs))
                  sample_archive _ sample_briefs Videos "v1"
                  eq_refl eq_refl eq_refl (fun _ => eq_refl))).
Defined.

(** ** The kind of a list, in the query *)

Lemma filter_negb_filter {A} (p : A -> bool) (l : list A) :
  filter p (filter (fun x => negb (p x)) l) = []
  /\ filter (fun x => negb (p x)) (filter (fun x => negb (p x)) l)
     = filter (fun x => negb (p x)) l.
Proof.
  induction l as [| x l [IH1 IH2]]; [split; reflexivity |].
  cbn [filter]; destruct (p x) eqn:E; cbn [negb filter]; [split; assumption |].
  rewrite E; cbn [negb]; rewrite IH2; split; [assumption | reflexivity].
Qed.

(** After [params_set] the name occurs once, with the value, and the other
    pairs are as before. *)
Lemma params_set_filter (name value : string) (params : list (string * string)) :
  filter (fun nv => (fst nv =? name)%string) (params_set name value params) = [(name, value)]
  /\ filter (fun nv => negb (fst nv =? name)%string) (params_set name value params)
     = filter (fun nv => negb (fst nv =? name)%string) params.
Proof.
  induction params as [| [n v] params [IH1 IH2]]; cbn [params_set filter fst].
  - rewrite String.eqb_refl; split; reflexivity.
  - destruct (n =? name)%string eqn:E; cbn [filter fst negb].
    + rewrite String.eqb_refl; cbn [negb].
      destruct (filter_negb_filter (fun nv : string * string => (fst nv =? name)%string) params)
        as [H1 H2].
      rewrite H1, H2; split; reflexivity.
    + rewrite E; cbn [negb]; rewrite IH1, IH2; split; reflexivity.
Qed.

(** X15. For an opened archive whose link parses as an address,
    [fetchVideosBrief kind] requests the link's own origin, path and
    fragment, with a query in which [kind] occurs exactly once, with the
    string of the kind asked for: a [kind] parameter that the link carries
    is replaced, and the other parameters of the link are kept in their
    order. *)
Theorem fetchVideosBrief_kind_once (kind : ArchiveVideoKind) (w : World)
    (archive : Archive) (u : URL) :
  openedArchive (store w) = Some archive ->
  URL_new (getArchiveApiLink archive) = Ok u ->
  exists target params,
    map url (snd (fetchVideosBrief kind w)) = [href target]
    /\ origin target = origin u /\ pathname target = pathname u /\ hash target = hash u
    /\ search target = String "?" (serialize_query params)
    /\ filter (fun nv => (fst nv =? "kind")%string) params
       = [("kind", archiveVideoKindToString kind)]
    /\ filter (fun nv => negb (fst nv =? "kind")%string) params
       = filter (fun nv => negb (fst nv =? "kind")%string)
           (parse_query (drop_first (search u))).
Proof.
  intros Hopen Hurl.
  exists (searchParams_set u "kind" (archiveVideoKindToString kind)).
  eexists; split; [| repeat split; try reflexivity; apply params_set_filter].
  unfold_async; rewrite Hopen, Hurl; cbn [fst snd].
  destruct (remote w _); reflexivity.
Qed.

Lemma fetchVideosBrief_kind_once_witness :
  (exists target params,
     map url (snd (fetchVideosBrief Shorts
                     (sample_world (Some {| server := "https://h?kind=videos&page=2";
                                            slug := "abc" |}) 200 "[]")))
     = [href target]
     /\ origin target = "https://h" /\ pathname target = "/" /\ hash target = ""
     /\ search target = String "?" (serialize_query params)
     /\ filter (fun nv => (fst nv =? "kind")%string) params = [("kind", "shorts")]
     /\ filter (fun nv => negb (fst nv =? "kind")%string) params
        = [("page", "2/archive/abc")])
  /\ map url (snd (fetchVideosBrief Shorts
                     (sample_world (Some {| server := "https://h?kind=videos&page=2";
                                            slug := "abc" |}) 200 "[]")))
     = ["https://h/?kind=shorts&page=2%2Farchive%2Fabc"].
Proof.
  split; [| reflexivity].
  exact (fetchVideosBrief_kind_once Shorts
           (sample_world (Some {| server := "https://h?kind=videos&page=2"; slug := "abc" |})
              200 "[]")
           {| server := "https://h?kind=videos&page=2"; slug := "abc" |}
           {| origin := "https://h"; pathname := "/";
              search := "?kind=videos&page=2/archive/abc"; hash := "" |}
           eq_refl eq_refl).
Defined.

Lemma concat_cons (sep x y : string) (l : list string) :
  String.concat sep (x :: y :: l) = x ++ sep ++ String.concat sep (y :: l).
Proof. reflexivity. Qed.

(** The serialised query around the value that was set. *)
Lemma serialize_params_set (name : string) (params : list (string * string)) :
  exists before after,
    forall value,
      serialize_query (params_set name value params)
      = before ++ form_encode name ++ "=" ++ form_encode value ++ after.
Proof.
  unfold serialize_query.
  set (pair_text := fun nv : string * string => form_encode (fst nv) ++ "=" ++ form_encode (snd nv)).
  induction params as [| [n v] params (before & after & IH)]; cbn [params_set].
  - exists "", ""; intros value; cbn [map String.concat append]; unfold pair_text; cbn [fst snd].
    rewrite append_nil_r; reflexivity.
  - destruct (n =? name)%string.
    + destruct (filter (fun nv => negb (fst nv =? name)%string) params) as [| nv rest].
      * exists "", ""; intros value; cbn [map String.concat append]; unfold pair_text; cbn [fst snd].
        rewrite append_nil_r; reflexivity.
      * exists "", ("&" ++ String.concat "&" (map pair_text (nv :: rest))).
        intros value; cbn [map]; rewrite concat_cons; unfold pair_text at 1; cbn [fst snd append].
        rewrite !append_assoc; reflexivity.
    + exists (form_encode n ++ "=" ++ form_encode v ++ "&" ++ before), after; intros value.
      specialize (IH value).
      destruct (params_set name value params) as [| nv rest] eqn:E.
      { destruct params as [| [] ?]; cbn in E; [discriminate |].
        destruct (_ =? _)%string; discriminate. }
      cbn [map] in *; rewrite concat_cons, IH; unfold pair_text at 1; cbn [fst snd].
      rewrite !append_assoc; reflexivity.
Qed.

(** X16. For an opened archive whose link parses as an address, the lists of
    two different kinds are never requested at the same address:
    [fetchVideosBrief] issues different requests for different kinds. *)
Theorem fetchVideosBrief_kinds_apart (k1 k2 : ArchiveVideoKind) (w : World)
    (archive : Archive) (u : URL) :
  openedArchive (store w) = Some archive ->
  URL_new (getArchiveApiLink archive) = Ok u ->
  k1 <> k2 ->
  snd (fetchVideosBrief k1 w) <> snd (fetchVideosBrief k2 w).
Proof.
  intros Hopen Hurl Hne.
  assert (Htrace : forall k,
            snd (fetchVideosBrief k w)
            = [{| method := GET;
                  url := href (searchParams_set u "kind" (archiveVideoKindToString k));
                  headers := []; body := None |}]).
  { intros k; unfold_async; rewrite Hopen, Hurl; cbn [fst snd].
    destruct (remote w _); reflexivity. }
  rewrite !Htrace; intros H; injection H as H.
  unfold href, searchParams_set in H; cbn [origin pathname search hash] in H.
  do 2 apply append_cancel_l in H.
  cbn [append] in H; injection H as H; apply append_cancel_r in H.
  destruct (serialize_params_set "kind" (parse_query (drop_first (search u))))
    as (before & after & Hser).
  rewrite !Hser in H; do 2 apply append_cancel_l in H.
  destruct k1, k2; try (apply Hne; reflexivity); discriminate H.
Qed.

Lemma fetchVideosBrief_kinds_apart_witness :
  snd (fetchVideosBrief Videos (sample_world (Some sample_archive) 200 "[]"))
  <> snd (fetchVideosBrief Livestreams (sample_world (Some sample_archive) 200 "[]")).
Proof.
  refine (fetchVideosBrief_kinds_apart Videos Livestreams
            (sample_world (Some sample_archive) 200 "[]") sample_archive _
            eq_refl eq_refl _).
  discriminate.
Defined.

(** ** The loader, case by case *)

(** X17. [load] redirects exactly when the parent gave an archive state, to
    [/archive] with status 307, whatever the cookies.  Without one
    it returns whatever value the cookie's text denotes, array or not, and
    its only failure is the [SyntaxError] of a cookie that is present and is
    no JSON text. *)
Theorem load_cases (S : Type) (archiveState : option S) (cookies : string -> option string) :
  ((exists status location, load archiveState cookies = Throw (Redirect status location))
   <-> archiveState <> None)
  /\ (archiveState <> None -> load archiveState cookies = Throw (Redirect 307 "/archive"))
  /\ (archiveState = None ->
      forall v, JSON_wf v = true ->
      cookies "recentArchives" = Some (JSON_stringify v) ->
      load archiveState cookies = Ok {| recentArchives := v |})
  /\ (archiveState = None ->
      forall e, load archiveState cookies = Throw e ->
      e = SyntaxError
      /\ exists raw, cookies "recentArchives" = Some raw /\ JSON_parse raw = Throw SyntaxError).
Proof.
  destruct archiveState as [state |]; cbn [load].
  - split; [split; [discriminate | intros _; eexists; eexists; reflexivity] |].
    split; [reflexivity |]; split; discriminate.
  - split; [split; [| intros H; contradiction H; reflexivity] |].
    { intros (status & location & H).
      destruct (cookies "recentArchives") as [raw |]; [| discriminate H].
      destruct (JSON_parse raw) eqn:E; [discriminate H |].
      apply JSON_parse_throws in E; subst; discriminate H. }
    split; [intros H; contradiction H; reflexivity |].
    split.
    + intros _ v Hwf ->; rewrite (JSON_parse_stringify v Hwf); reflexivity.
    + intros _ e H.
      destruct (cookies "recentArchives") as [raw |]; [| discriminate H].
      destruct (JSON_parse raw) eqn:E; [discriminate H |].
      injection H as <-; pose proof (JSON_parse_throws _ _ E) as ->.
      split; [reflexivity | exists raw; split; [reflexivity | exact E]].
Qed.

Lemma load_cases_witness :
  load (@None nat) (cookie_jar (Some (JSON_stringify (JObject [("server", JString "s")])))
                      (fun _ => None))
  = Ok {| recentArchives := JObject [("server", JString "s")] |}.
Proof.
  exact (proj1 (proj2 (proj2 (load_cases nat None
                  (cookie_jar (Some (JSON_stringify (JObject [("server", JString "s")])))
                     (fun _ => None)))))
           eq_refl (JObject [("server", JString "s")]) eq_refl eq_refl).
Defined.

Lemma connector_ignores_status_witness :
  fetchVideoDetails "v1" (sample_world (Some sample_archive) 200 "{}")
  = fetchVideoDetails "v1" (sample_world (Some sample_archive) 500 "{}").
Proof.
  exact (proj1 (proj2 (proj2 (proj2
           (connector_ignores_status
              (sample_world (Some sample_archive) 200 "{}")
              (sample_world (Some sample_archive) 500 "{}")
              sample_payload sample_import Videos "v1" (sample_note "12" "intro")
              eq_refl eq_refl (fun _ => eq_refl)))))).
Defined.

(** ** The server of a creation *)

(** X18. The path of the server has no part in where an archive is created
    or imported: two servers whose addresses share origin, query and
    fragment are posted the same request, at [/archive] of the origin, by
    [createNewRemoteArchive] and by [importNewRemoteArchive], and only the
    server of the record they resolve to tells them apart. *)
Theorem remote_archive_ignores_server_path (s1 s2 slug path target : string) (w : World)
    (u1 u2 : URL) :
  URL_new s1 = Ok u1 -> URL_new s2 = Ok u2 ->
  origin u1 = origin u2 -> search u1 = search u2 -> hash u1 = hash u2 ->
  let create s :=
    createNewRemoteArchive
      {| create_server := s; create_slug := slug;
         create_path := path; create_target := target |} w in
  let import s :=
    importNewRemoteArchive
      {| import_server := s; import_slug := slug; import_path := path |} w in
  let relabel (r : result UncheckedArchive) :=
    match r with
    | Ok a => Ok {| unchecked_server := s2; unchecked_slug := unchecked_slug a |}
    | Throw e => Throw e
    end in
  snd (create s1) = snd (create s2) /\ relabel (fst (create s1)) = fst (create s2)
  /\ snd (import s1) = snd (import s2) /\ relabel (fst (import s1)) = fst (import s2)
  /\ Forall (fun r => exists q, url r = origin u1 ++ "/archive" ++ q) (snd (create s1)).
Proof.
  intros H1 H2 Ho Hs Hh; cbv zeta.
  unfold_connector.
  cbn [create_server create_slug create_path create_target
       import_server import_slug import_path].
  rewrite H1, H2; cbn [fst snd].
  unfold href, searchParams_set, set_pathname; cbn [origin pathname search hash].
  rewrite Ho, Hs, Hh.
  repeat split; settle; try reflexivity.
  all: try apply Forall_nil; apply Forall_cons; [eexists; reflexivity | apply Forall_nil].
Qed.

Lemma remote_archive_ignores_server_path_witness :
  let create s :=
    createNewRemoteArchive
      {| create_server := s; create_slug := "abc";
         create_path := "/srv/abc"; create_target := "https://tube/c/x" |}
      (sample_world None 200 "{}") in
  snd (create "https://h/base/") = snd (create "https://h")
  /\ map url (snd (create "https://h/base/")) = ["https://h/archive?intent=create"].
Proof.
  split; [| reflexivity].
  exact (proj1 (remote_archive_ignores_server_path "https://h/base/" "https://h"
                  "abc" "/srv/abc" "https://tube/c/x" (sample_world None 200 "{}") _ _
                  eq_refl eq_refl eq_refl eq_refl eq_refl)).
Defined.

(** ** A server that does not answer *)

(** X19. When the server gives no response, a function that got as far as
    its request rejects with the [TypeError] of [fetch], after that one
    request: the lists, the details, the creation, and the deletion of a
    note as well, which only overlooks the responses it gets. *)
Theorem connector_no_response (w : World) (archive : Archive) (u u' : URL)
    (create : CreateArchiveRemotePayload)
    (kind : ArchiveVideoKind) (id : string) (note : Note) :
  openedArchive (store w) = Some archive ->
  URL_new (getArchiveApiLink archive) = Ok u ->
  URL_new (create_server create) = Ok u' ->
  (forall request, remote w request = None) ->
  let failed {A} (r : result A * list Request) :=
    fst r = Throw TypeError /\ List.length (snd r) = 1 in
  failed (fetchVideosBrief kind w)
  /\ failed (fetchVideoDetails id w)
  /\ failed (deleteNote id note w)
  /\ failed (createNewRemoteArchive create w).
Proof.
  intros Hopen Hurl Hurl' Hremote; cbv zeta.
  unfold_connector; rewrite Hopen, Hurl, Hurl'; cbn [fst snd].
  rewrite !Hremote; repeat split.
Qed.

Lemma connector_no_response_witness :
  deleteNote "v1" (sample_note "12" "intro") (silent_world (Some sample_archive))
  = (Throw TypeError,
     [{| method := DELETE; url := "https://h/archive/abc/video/v1/note/n1";
         headers := []; body := None |}]).
Proof.
  pose proof (connector_no_response (silent_world (Some sample_archive)) sample_archive _ _
                sample_payload Videos "v1" (sample_note "12" "intro")
                eq_refl eq_refl eq_refl (fun _ => eq_refl)) as (_ & _ & [Hfst _] & _).
  destruct (deleteNote "v1" (sample_note "12" "intro") (silent_world (Some sample_archive)))
    as [r t] eqn:E.
  cbn [fst] in Hfst; rewrite Hfst.
  apply (f_equal snd) in E; cbn [snd] in E; rewrite <- E; reflexivity.
Defined.
